(** * scikit-cosmo: sparse-KDE cluster refinement and the PCovR utilities

    A shallow embedding of

    - [examples/neighbors/sparse-kde.py]: [rij], [quick_shift_refinement],
      [generate_probability_model] with its three nested helpers;
    - [skcosmo/utils/pcovr_utils.py]: [pcovr_covariance], [pcovr_kernel].

    Conventions.  A float64 is a real number: the arithmetic is exact, and
    [inf]/[nan] have no counterpart (where the code starts a search from
    [np.inf] the running minimum is an [option]).  An integer array is a
    [list nat]; a 2-D float array is a [matrix], which carries its shape next
    to its rows.  A Python exception ends a computation with [Raise]; the two
    arrays that the script's functions update in place, and standard output,
    are the fields of [world], which every stateful function threads. *)

From Stdlib Require Import String.
From Stdlib Require Import Reals List ZArith Bool Arith Lia Lra.
Import ListNotations.

Local Open Scope string_scope.
Local Open Scope list_scope.
Local Open Scope R_scope.
Local Open Scope nat_scope.

(** ** Exceptions and the two monads *)

Inductive exn : Type :=
| ValueError (msg : string)
| IndexError (msg : string)
| KeyError (key : string)
| NameError (name : string)
| MaskError (msg : string).

Inductive outcome (A : Type) : Type :=
| Ok (a : A)
| Raise (e : exn).

Arguments Ok {A} a.
Arguments Raise {A} e.

Definition obind {A B : Type} (c : outcome A) (k : A -> outcome B) : outcome B :=
  match c with
  | Ok a => k a
  | Raise e => Raise e
  end.

(** The caller's [cluster_centers_idx] and [labels] arrays, and what has been
    printed so far. *)
Record world : Type := World {
  w_centers : list nat;
  w_labels : list nat;
  w_stdout : list string
}.

Definition M (A : Type) : Type := world -> outcome A * world.

Definition ret {A : Type} (a : A) : M A := fun w => (Ok a, w).

Definition bind {A B : Type} (c : M A) (k : A -> M B) : M B :=
  fun w =>
    match c w with
    | (Ok a, w') => k a w'
    | (Raise e, w') => (Raise e, w')
    end.

Definition raise {A : Type} (e : exn) : M A := fun w => (Raise e, w).

Definition lift {A : Type} (c : outcome A) : M A := fun w => (c, w).

Definition get_centers : M (list nat) := fun w => (Ok (w_centers w), w).
Definition get_labels : M (list nat) := fun w => (Ok (w_labels w), w).

Definition put_centers (c : list nat) : M unit :=
  fun w => (Ok tt, World c (w_labels w) (w_stdout w)).

Definition put_labels (l : list nat) : M unit :=
  fun w => (Ok tt, World (w_centers w) l (w_stdout w)).

Definition print (line : string) : M unit :=
  fun w => (Ok tt, World (w_centers w) (w_labels w) (w_stdout w ++ [line])).

Declare Scope py_scope.
Delimit Scope py_scope with py.

Notation "x <- c ;; k" := (bind c (fun x => k))
  (at level 61, c at next level, right associativity) : py_scope.
Notation "' pat <- c ;; k" := (bind c (fun x => match x with pat => k end))
  (at level 61, pat pattern, c at next level, right associativity) : py_scope.
Notation "c ;;; k" := (bind c (fun _ => k))
  (at level 61, right associativity) : py_scope.

Notation "x <-- c ;; k" := (obind c (fun x => k))
  (at level 61, c at next level, right associativity) : py_scope.

Local Open Scope py_scope.

(** [for i in l: s = body(i, s)], the loop-carried locals in [s]. *)
Fixpoint for_each {S : Type} (l : list nat) (body : nat -> S -> M S) (s : S) : M S :=
  match l with
  | [] => ret s
  | i :: l' => s' <- body i s ;; for_each l' body s'
  end.

Fixpoint ofor_each {S : Type} (l : list nat) (body : nat -> S -> outcome S) (s : S)
  : outcome S :=
  match l with
  | [] => Ok s
  | i :: l' => s' <-- body i s ;; ofor_each l' body s'
  end.

Definition range (n : nat) : list nat := seq 0 n.

(** ** Arrays *)

Definition getitem {A : Type} (a : list A) (i : nat) : outcome A :=
  match nth_error a i with
  | Some x => Ok x
  | None => Raise (IndexError "index out of bounds")
  end.

Fixpoint set_nth {A : Type} (a : list A) (i : nat) (v : A) : list A :=
  match a, i with
  | [], _ => []
  | _ :: a', O => v :: a'
  | x :: a', S i' => x :: set_nth a' i' v
  end.

Definition setitem {A : Type} (a : list A) (i : nat) (v : A) : outcome (list A) :=
  if i <? length a then Ok (set_nth a i v)
  else Raise (IndexError "index out of bounds").

(** [a[mask]]: the entries of [a] where the boolean [mask] holds; the two
    must have one length. *)
Fixpoint compress {A : Type} (a : list A) (mask : list bool) : list A :=
  match a, mask with
  | x :: a', b :: mask' => if b then x :: compress a' mask' else compress a' mask'
  | _, _ => []
  end.

Definition mask_select {A : Type} (a : list A) (mask : list bool) : outcome (list A) :=
  if length a =? length mask then Ok (compress a mask)
  else Raise (IndexError "boolean index did not match indexed array").

(** [labels == c] and [labels != c]. *)
Definition eq_mask (labels : list nat) (c : nat) : list bool :=
  map (fun l => l =? c) labels.

Definition ne_mask (labels : list nat) (c : nat) : list bool :=
  map (fun l => negb (l =? c)) labels.

(** [labels[labels == a] = b]. *)
Definition relabel (a b : nat) (labels : list nat) : list nat :=
  map (fun l => if l =? a then b else l) labels.

(** ** Floats as reals *)

Definition Rltb (x y : R) : bool := if Rlt_dec x y then true else false.
Definition Rgtb (x y : R) : bool := Rltb y x.

Definition Rsum (a : list R) : R := fold_right Rplus 0%R a.

(** [scipy.special.logsumexp] of a non-empty array.  Of an empty one scipy
    returns [-inf], which the reals lack; [ln 0] stands there, and the
    statements that rest on the mass of a cluster keep to clusters with a
    member. *)
Definition logsumexp (a : list R) : R := ln (Rsum (map exp a)).

(** [np.round]: to the nearest integer, a tie going to the even one. *)
Definition round_half_even (x : R) : Z :=
  let n := Int_part x in
  let f := (x - IZR n)%R in
  if Rlt_dec f (1 / 2) then n
  else if Rlt_dec (1 / 2) f then (n + 1)%Z
  else if Z.even n then n else (n + 1)%Z.

Definition np_round (x : R) : R := IZR (round_half_even x).

(** Elementwise arithmetic on vectors of one length. *)
Fixpoint zip_with {A B C : Type} (f : A -> B -> C) (a : list A) (b : list B) : list C :=
  match a, b with
  | x :: a', y :: b' => f x y :: zip_with f a' b'
  | _, _ => []
  end.

Definition vop (f : R -> R -> R) (a b : list R) : outcome (list R) :=
  if length a =? length b then Ok (zip_with f a b)
  else Raise (ValueError "operands could not be broadcast together").

(** ** sparse-kde.py: [rij] *)

Definition rij (period : option (list R)) (xi xj : list R) : outcome (list R) :=
  xij <-- vop Rminus xi xj ;;
  match period with
  | None => Ok xij
  | Some p =>
      q <-- vop Rdiv xij p ;;
      s <-- vop Rmult (map np_round q) p ;;
      vop Rminus xij s
  end.

(** What [rij] computes in one coordinate of period [p], and in all of them. *)
Definition rij1 (p xi xj : R) : R :=
  ((xi - xj) - np_round ((xi - xj) / p) * p)%R.

Fixpoint rij_vec (P a b : list R) : list R :=
  match P, a, b with
  | p :: P', x :: a', y :: b' => rij1 p x y :: rij_vec P' a' b'
  | _, _, _ => []
  end.

(** Modelled from the spec: [periodic_pairwise_euclidean_distances], which
    the script imports from [skmatter.metrics].  Section 4.1: the coordinate
    difference of each dimension is reduced by the period, then squared and
    summed; with no period it is the ordinary Euclidean distance.  The
    reduction is the one of [rij]. *)
Definition periodic_distance (period : option (list R)) (a b : list R) : outcome R :=
  d <-- rij period a b ;;
  Ok (sqrt (Rsum (map (fun x => x * x)%R d))).

Definition euclidean_distance (a b : list R) : outcome R :=
  periodic_distance None a b.

(** ** Matrices, dictionaries and the remaining numpy helpers *)

(** A 2-D float array: [X.shape = (shape0, shape1)], [len(X) = shape0],
    [X[i]] is the [i]-th of [rows]. *)
Record matrix : Type := Matrix {
  shape0 : nat;
  shape1 : nat;
  rows : list (list R)
}.

Definition mget (A : matrix) (i j : nat) : R := nth j (nth i (rows A) []) 0%R.

(** The [n] by [m] array whose entry [(i, j)] is [f i j]. *)
Definition build (n m : nat) (f : nat -> nat -> R) : matrix :=
  Matrix n m (map (fun i => map (fun j => f i j) (range m)) (range n)).

Definition zeros (n m : nat) : matrix := build n m (fun _ _ => 0%R).

(** [A[:, j]] and [A[:, j] = col]. *)
Definition get_col (A : matrix) (j : nat) : list R :=
  map (fun row => nth j row 0%R) (rows A).

Definition set_col (A : matrix) (j : nat) (col : list R) : outcome matrix :=
  if length col =? shape0 A
  then Ok (Matrix (shape0 A) (shape1 A)
             (zip_with (fun row v => set_nth row j v) (rows A) col))
  else Raise (ValueError "could not broadcast input array").

(** [A[i, j] = v]. *)
Definition mset (A : matrix) (i j : nat) (v : R) : outcome matrix :=
  if (i <? shape0 A) && (j <? shape1 A)
  then Ok (Matrix (shape0 A) (shape1 A)
             (set_nth (rows A) i (set_nth (nth i (rows A) []) j v)))
  else Raise (IndexError "index out of bounds").

(** A Python [dict] with string keys, in insertion order. *)
Definition dict (V : Type) : Type := list (string * V).

Fixpoint dict_get {V : Type} (d : dict V) (key : string) : option V :=
  match d with
  | [] => None
  | (k, v) :: d' => if String.eqb k key then Some v else dict_get d' key
  end.

(** [sum(mask)] and [np.sum(mask)] of a boolean array. *)
Definition count_true (mask : list bool) : nat :=
  List.length (filter (fun b => b) mask).

(** [np.argwhere(mask)] of a 1-D mask: one row [[i]] per true entry. *)
Fixpoint argwhere_from (mask : list bool) (i : nat) : list (list nat) :=
  match mask with
  | [] => []
  | b :: mask' =>
      if b then [i] :: argwhere_from mask' (S i) else argwhere_from mask' (S i)
  end.

Definition argwhere (mask : list bool) : list (list nat) := argwhere_from mask 0.

(** [np.concatenate]: refuses an empty sequence of arrays. *)
Definition np_concatenate (arrays : list (list nat)) : outcome (list nat) :=
  match arrays with
  | [] => Raise (ValueError "need at least one array to concatenate")
  | _ => Ok (concat arrays)
  end.

(** [a[mask] = vals]. *)
Fixpoint mask_put (a : list R) (mask : list bool) (vals : list R) : list R :=
  match a, mask with
  | x :: a', b :: mask' =>
      if b
      then match vals with
           | v :: vals' => v :: mask_put a' mask' vals'
           | [] => x :: mask_put a' mask' []
           end
      else x :: mask_put a' mask' vals
  | _, _ => a
  end.

Definition mask_assign (a : list R) (mask : list bool) (vals : list R)
  : outcome (list R) :=
  if negb (length a =? length mask)
  then Raise (IndexError "boolean index did not match indexed array")
  else if negb (length vals =? count_true mask)
  then Raise (ValueError "NumPy boolean array indexing assignment mismatch")
  else Ok (mask_put a mask vals).

(** [np.argmax(np.ma.array(a, mask=mask))]: the masked entries are filled
    with the least float before the first maximum is looked up, so with
    every entry masked the answer is 0. *)
Fixpoint argmax_from (a : list R) (mask : list bool) (i : nat)
    (best : option (nat * R)) : option (nat * R) :=
  match a, mask with
  | x :: a', b :: mask' =>
      argmax_from a' mask' (S i)
        (if b then best
         else match best with
              | Some (_, y) => if Rltb y x then Some (i, x) else best
              | None => Some (i, x)
              end)
  | _, _ => best
  end.

Definition masked_argmax (a : list R) (mask : list bool) : outcome nat :=
  if negb (length a =? length mask)
  then Raise (MaskError "Mask and data not compatible")
  else match a with
       | [] => Raise (ValueError "attempt to get argmax of an empty sequence")
       | _ => Ok (match argmax_from a mask 0 None with
                  | Some (i, _) => i
                  | None => 0
                  end)
       end.

(** [np.unique]: the distinct values, ascending. *)
Definition np_unique (labels : list nat) : list nat :=
  filter (fun v => existsb (Nat.eqb v) labels)
         (range (S (fold_right Nat.max 0 labels))).

(** ** sparse-kde.py: [quick_shift_refinement] *)

Definition cell_error : exn :=
  ValueError "Cell dimension does not match the data dimension.".

(** A local name that is read before any loop iteration has bound it. *)
Definition read_local (name : string) (v : option nat) : M nat :=
  match v with
  | Some k => ret k
  | None => raise (NameError name)
  end.

(** [dummd2 < dummd1], with [None] for the initial [np.inf]. *)
Definition lt_inf (d2 : R) (d1 : option R) : bool :=
  match d1 with
  | None => true
  | Some d => Rltb d2 d
  end.

(** The mass fraction of the cluster labelled [c]. *)
Definition cluster_mass (probs : list R) (labels : list nat) (c : nat) (normpks : R)
  : outcome R :=
  sel <-- mask_select probs (eq_mask labels c) ;;
  Ok (exp (logsumexp sel - normpks)).

Section QuickShiftRefinement.

(** The [metric] callable, called as [metric(x, y, cell=cell)]. *)
Variable metric : list R -> list R -> option (list R) -> R.

Variable X : matrix.
Variable probs : list R.
Variable thrpcl : R.

(** Lines 276-278; the locals are [to_merge] and the loop variable [k],
    which the next loop still reads. *)
Definition flag_body (normpks : R) (k : nat) (s : list bool * option nat)
  : M (list bool * option nat) :=
  centers <- get_centers ;;
  c <- lift (getitem centers k) ;;
  labels <- get_labels ;;
  dummd1 <- lift (cluster_mass probs labels c normpks) ;;
  to_merge <- lift (setitem (fst s) k (Rgtb dummd1 thrpcl)) ;;
  ret (to_merge, Some k).

(** Lines 285-291. *)
Definition merge_inner_body (cell : option (list R)) (to_merge : list bool)
    (k : option nat) (i dummd1yi1 : nat) (j : nat) (dummd1 : option R)
  : M (option R) :=
  kk <- read_local "k" k ;;
  flag <- lift (getitem to_merge kk) ;;
  if flag then ret dummd1
  else
    labels <- get_labels ;;
    li <- lift (getitem labels dummd1yi1) ;;
    xi <- lift (getitem (rows X) li) ;;
    lj <- lift (getitem labels j) ;;
    xj <- lift (getitem (rows X) lj) ;;
    let dummd2 := metric xi xj cell in
    if lt_inf dummd2 dummd1
    then
      centers <- get_centers ;;
      centers' <- lift (setitem centers i j) ;;
      put_centers centers' ;;;
      ret (Some dummd2)
    else ret dummd1.

(** Lines 280-292. *)
Definition merge_body (cell : option (list R)) (to_merge : list bool)
    (k : option nat) (nk : nat) (i : nat) (_ : unit) : M unit :=
  kk <- read_local "k" k ;;
  flag <- lift (getitem to_merge kk) ;;
  if negb flag then ret tt
  else
    centers <- get_centers ;;
    dummd1yi1 <- lift (getitem centers i) ;;
    _ <- for_each (range nk) (merge_inner_body cell to_merge k i dummd1yi1) None ;;
    centers <- get_centers ;;
    ci <- lift (getitem centers i) ;;
    labels <- get_labels ;;
    put_labels (relabel dummd1yi1 ci labels).

(** Lines 298-303; [cs] is the fresh array that [np.concatenate] returned. *)
Definition recenter_body (i : nat) (cs : list nat) : M (list nat) :=
  dummd1yi1 <- lift (getitem cs i) ;;
  labels <- get_labels ;;
  c <- lift (getitem cs i) ;;
  best <- lift (masked_argmax probs (ne_mask labels c)) ;;
  cs' <- lift (setitem cs i best) ;;
  ci <- lift (getitem cs' i) ;;
  labels <- get_labels ;;
  put_labels (relabel dummd1yi1 ci labels) ;;;
  ret cs'.

(** Lines 265-270. *)
Definition refinement_cell (metric_params : option (dict (list R)))
  : outcome (option (list R)) :=
  match metric_params with
  | Some params =>
      match dict_get params "cell_length" with
      | Some cell =>
          if negb (length cell =? shape1 X) then Raise cell_error
          else Ok (Some cell)
      | None => Raise (KeyError "cell_length")
      end
  | None => Ok None
  end.

(** Lines 272-305. *)
Definition refinement_body (cell : option (list R)) : M (list nat * list nat) :=
  let normpks := logsumexp probs in
  centers <- get_centers ;;
  let nk := length centers in
  ' (to_merge, k) <- for_each (range nk) (flag_body normpks) (repeat false nk, None) ;;
  _ <- for_each (range nk) (merge_body cell to_merge k nk) tt ;;
  if 0 <? count_true to_merge
  then
    labels <- get_labels ;;
    cs <- lift (np_concatenate
                  (argwhere (zip_with Nat.eqb labels (range (length labels))))) ;;
    let nk := length cs in
    cs <- for_each (range nk) recenter_body cs ;;
    labels <- get_labels ;;
    ret (cs, labels)
  else
    centers <- get_centers ;;
    labels <- get_labels ;;
    ret (centers, labels).

Definition quick_shift_refinement (metric_params : option (dict (list R)))
  : M (list nat * list nat) :=
  cell <- lift (refinement_cell metric_params) ;;
  refinement_body cell.

End QuickShiftRefinement.

(** ** sparse-kde.py: [generate_probability_model] *)

Section ProbabilityModel.

(** [skmatter.neighbors._sparsekde._covariance] and [skmatter.utils.oas],
    the covariance primitives that the script imports. *)
Variable _covariance : matrix -> list R -> option (list R) -> matrix.
Variable oas : matrix -> R -> nat -> matrix.

(** The arguments of [generate_probability_model] that its nested functions
    close over; [cluster_center_idx] and [labels] are in the [world]. *)
Variable X : matrix.
Variable descriptors : matrix.
Variable descriptor_labels : list nat.
Variable descriptor_weights : list R.
Variable probs : list R.
Variable cell : option (list R).

(** Lines 387-401. *)
Definition _get_lcov_cluster (N : nat) (x : matrix) (clroots : list nat) (idcl : nat)
    (probs : list R) (cell : option (list R)) : outcome matrix :=
  let ww := repeat 0%R N in
  sel <-- mask_select probs (eq_mask clroots idcl) ;;
  let normww := logsumexp sel in
  sel' <-- mask_select probs (eq_mask clroots idcl) ;;
  ww <-- mask_assign ww (eq_mask clroots idcl) (map (fun p => exp (p - normww)) sel') ;;
  Ok (_covariance x ww cell).

(** Lines 420-426, one pass of the loop over the dimensions. *)
Definition lcov_clusterp_body (x : matrix) (cell : list R) (ww : list R) (nlk : R)
    (i : nat) (s : matrix * matrix) : outcome (matrix * matrix) :=
  let '(cov, xx) := s in
  ci <-- getitem cell i ;;
  xx <-- set_col xx i
           (map (fun v => v - np_round (v / ci) * ci)%R (get_col x i)) ;;
  wc <-- vop Rmult ww (map cos (get_col xx i)) ;;
  ws <-- vop Rmult ww (map sin (get_col xx i)) ;;
  let r2 := ((Rsum wc / nlk) ^ 2 + (Rsum ws / nlk) ^ 2)%R in
  let re2 := ((nlk / (nlk - 1)) * (r2 - (1 / nlk)))%R in
  cov <-- mset cov i i (1 / (sqrt re2 * (2 - re2) / (1 - re2)))%R ;;
  Ok (cov, xx).

(** Lines 403-428. *)
Definition _get_lcov_clusterp (N Ntot : nat) (x : matrix) (clroots : list nat)
    (idcl : nat) (probs : list R) (cell : list R) : outcome matrix :=
  let ww := repeat 0%R N in
  let totnormp := logsumexp probs in
  let cov := zeros (shape1 x) (shape1 x) in
  let xx := zeros (shape0 x) (shape1 x) in
  sel <-- mask_select probs (eq_mask clroots idcl) ;;
  ww <-- mask_assign ww (eq_mask clroots idcl) (map (fun p => exp (p - totnormp)) sel) ;;
  let ww := map (fun w => w * INR Ntot)%R ww in
  let nlk := Rsum ww in
  s <-- ofor_each (range (shape1 x)) (lcov_clusterp_body x cell ww nlk) (cov, xx) ;;
  Ok (fst s).

Definition single_point_warning : string := "Warning: single point cluster!".

(** Lines 343-385; [nsamples] is [len(descriptors)]. *)
Definition _update_cluster_cov (X : matrix) (k : nat) (sample_labels : list nat)
    (probs : list R) (idxroot : list nat) (center_idx : list nat) : M matrix :=
  let nsamples := shape0 descriptors in
  match cell with
  | Some cell =>
      c <- lift (getitem center_idx k) ;;
      cov <- lift (_get_lcov_clusterp (shape0 X) nsamples X idxroot c probs cell) ;;
      c <- lift (getitem center_idx k) ;;
      if count_true (eq_mask idxroot c) =? 1
      then
        c <- lift (getitem center_idx k) ;;
        cov <- lift (_get_lcov_clusterp nsamples nsamples descriptors sample_labels c
                       descriptor_weights cell) ;;
        print single_point_warning ;;;
        ret cov
      else ret cov
  | None =>
      c <- lift (getitem center_idx k) ;;
      cov <- lift (_get_lcov_cluster (shape0 X) X idxroot c probs cell) ;;
      c <- lift (getitem center_idx k) ;;
      cov <- (if count_true (eq_mask idxroot c) =? 1
              then
                c <- lift (getitem center_idx k) ;;
                cov <- lift (_get_lcov_cluster nsamples descriptors sample_labels c
                               descriptor_weights cell) ;;
                print single_point_warning ;;;
                ret cov
              else ret cov) ;;
      c <- lift (getitem center_idx k) ;;
      sel <- lift (mask_select probs (eq_mask idxroot c)) ;;
      ret (oas cov (logsumexp sel * INR nsamples)%R (shape1 X))
  end.

(** [cluster_cov[k] = cov], on the stack of [dimension] by [dimension]
    matrices; an array of another shape is refused. *)
Definition set_cov (cluster_cov : list matrix) (dimension k : nat) (cov : matrix)
  : outcome (list matrix) :=
  if negb ((shape0 cov =? dimension) && (shape1 cov =? dimension))
  then Raise (ValueError "could not broadcast input array")
  else setitem cluster_cov k cov.

(** Lines 441-445. *)
Definition model_body (center_idx : list nat) (normpks : R) (dimension : nat)
    (k : nat) (s : list R * list matrix) : M (list R * list matrix) :=
  let '(cluster_weight, cluster_cov) := s in
  c <- lift (getitem center_idx k) ;;
  labels <- get_labels ;;
  wk <- lift (cluster_mass probs labels c normpks) ;;
  cluster_weight <- lift (setitem cluster_weight k wk) ;;
  labels <- get_labels ;;
  cov <- _update_cluster_cov X k descriptor_labels probs labels center_idx ;;
  cluster_cov <- lift (set_cov cluster_cov dimension k cov) ;;
  ret (cluster_weight, cluster_cov).

(** Lines 446-447. *)
Definition relabel_body (center_idx : list nat) (k : nat) (_ : unit) : M unit :=
  c <- lift (getitem center_idx k) ;;
  labels <- get_labels ;;
  put_labels (relabel c (k + 1) labels).

(** Lines 430-431. *)
Definition model_cell_check : outcome unit :=
  match cell with
  | Some c => if negb (shape1 X =? length c) then Raise cell_error else Ok tt
  | None => Ok tt
  end.

(** Lines 432-449. *)
Definition probability_model_body
  : M (list R * matrix * list matrix * list nat) :=
  cluster_center_idx <- get_centers ;;
  let nclusters := length cluster_center_idx in
  let dimension := shape1 X in
  let cluster_mean := zeros nclusters dimension in
  let cluster_cov := repeat (zeros dimension dimension) nclusters in
  let cluster_weight := repeat 0%R nclusters in
  labels <- get_labels ;;
  let center_idx := np_unique labels in
  let normpks := logsumexp probs in
  ' (cluster_weight, cluster_cov) <-
    for_each (range nclusters) (model_body center_idx normpks dimension)
      (cluster_weight, cluster_cov) ;;
  _ <- for_each (range nclusters) (relabel_body center_idx) tt ;;
  labels <- get_labels ;;
  ret (cluster_weight, cluster_mean, cluster_cov, labels).

Definition generate_probability_model
  : M (list R * matrix * list matrix * list nat) :=
  lift model_cell_check ;;;
  probability_model_body.

End ProbabilityModel.

(** ** pcovr_utils.py *)

Notation "' pat <-- c ;; k" := (obind c (fun x => match x with pat => k end))
  (at level 61, pat pattern, c at next level, right associativity) : py_scope.

(** [A.T], [A @ B], [c * A], [np.diagflat(v)], [A[:, mask]] and
    [A.reshape((n, -1))]. *)
Definition transpose (A : matrix) : matrix :=
  build (shape1 A) (shape0 A) (fun i j => mget A j i).

Definition matmul (A B : matrix) : outcome matrix :=
  if negb (shape1 A =? shape0 B)
  then Raise (ValueError "matmul: mismatch in the core dimension")
  else Ok (build (shape0 A) (shape1 B)
             (fun i j => Rsum (map (fun k => mget A i k * mget B k j)%R
                                   (range (shape1 A))))).

Definition scale (c : R) (A : matrix) : matrix :=
  build (shape0 A) (shape1 A) (fun i j => c * mget A i j)%R.

(** [C += A] follows numpy's broadcasting of [A] to the shape of [C]: an
    axis of [A] fits when it has the length of the axis of [C], or the
    length one, and then its only entry is repeated along the axis; [C] is
    never enlarged; anything else raises. *)
Definition broadcastable (a c : nat) : bool := (a =? c) || (a =? 1).

Definition iadd (C A : matrix) : outcome matrix :=
  if negb (broadcastable (shape0 A) (shape0 C) &&
           broadcastable (shape1 A) (shape1 C))
  then Raise (ValueError "operands could not be broadcast together")
  else Ok (build (shape0 C) (shape1 C)
             (fun i j =>
                mget C i j +
                mget A (if shape0 A =? shape0 C then i else 0)
                       (if shape1 A =? shape1 C then j else 0))%R).

Definition diagflat (v : list R) : matrix :=
  build (length v) (length v) (fun i j => if i =? j then nth i v 0%R else 0%R).

Definition select_cols (A : matrix) (mask : list bool) : outcome matrix :=
  if negb (shape1 A =? length mask)
  then Raise (IndexError "boolean index did not match indexed array")
  else
    let idx := concat (argwhere mask) in
    Ok (build (shape0 A) (length idx) (fun i j => mget A i (nth j idx 0))).

Definition reshape_rows (A : matrix) (n : nat) : outcome matrix :=
  let size := shape0 A * shape1 A in
  if (n =? 0) || negb (size mod n =? 0)
  then Raise (ValueError "cannot reshape array")
  else
    let m := size / n in
    Ok (build n m (fun i j =>
          let flat := i * m + j in
          mget A (flat / shape1 A) (flat mod shape1 A))).

(** The value of a keyword argument: a string, or anything else. *)
Inductive kwval : Type :=
| KwString (s : string)
| KwObject.

Definition kw_is (v : kwval) (s : string) : bool :=
  match v with
  | KwString s' => String.eqb s' s
  | KwObject => false
  end.

Section PCovR.

(** [scipy.linalg.svd(X, full_matrices=False)],
    [sklearn.utils.extmath.randomized_svd(X, n_components, n_iter,
    flip_sign=True, random_state)] and
    [sklearn.metrics.pairwise.pairwise_kernels(X, **kernel_params)]. *)
Variable linalg_svd : matrix -> outcome (matrix * list R * matrix).
Variable randomized_svd :
  matrix -> nat -> option nat -> nat -> outcome (matrix * list R * matrix).
Variable pairwise_kernels : matrix -> dict kwval -> outcome matrix.

(** Lines 90-126.  The result is [C] alone, or [(C, C_isqrt)] under
    [return_isqrt]. *)
Definition pcovr_covariance (mixing : R) (X Y : matrix) (rcond : R)
    (return_isqrt : bool) (rank : option nat) (random_state : nat)
    (iterated_power : option nat) : outcome (matrix * option matrix) :=
  let C := zeros (shape1 X) (shape1 X) in
  ' (C, C_isqrt) <--
    (if Rltb mixing 1 || return_isqrt
     then
       let rank := match rank with
                   | None => Nat.min (shape0 X) (shape1 X)
                   | Some r => r
                   end in
       ' (_, vC, UC) <--
         (if Nat.min (shape0 X) (shape1 X) <=? rank
          then linalg_svd X
          else randomized_svd X rank iterated_power random_state) ;;
       UC <-- select_cols (transpose UC) (map (fun v => Rgtb v rcond) vC) ;;
       vC <-- mask_select vC (map (fun v => Rgtb v rcond) vC) ;;
       UD <-- matmul UC (diagflat (map (fun v => 1 / v)%R vC)) ;;
       C_isqrt <-- matmul UD (transpose UC) ;;
       XtY <-- matmul (transpose X) Y ;;
       C_Y <-- matmul C_isqrt XtY ;;
       C_Y <-- reshape_rows C_Y (shape0 C) ;;
       CYCYt <-- matmul (scale (1 - mixing) C_Y) (transpose C_Y) ;;
       C <-- iadd C CYCYt ;;
       Ok (C, Some C_isqrt)
     else Ok (C, None)) ;;
  C <-- (if Rgtb mixing 0
         then
           XtX <-- matmul (transpose X) X ;;
           iadd C (scale mixing XtX)
         else Ok C) ;;
  if return_isqrt then Ok (C, C_isqrt) else Ok (C, None).

(** Lines 161-172. *)
Definition pcovr_kernel (mixing : R) (X Y : matrix) (kernel_params : dict kwval)
  : outcome matrix :=
  let K := zeros (shape0 X) (shape0 X) in
  K <-- (if Rltb mixing 1
         then
           YYt <-- matmul (scale (1 - mixing) Y) (transpose Y) ;;
           iadd K YYt
         else Ok K) ;;
  if Rgtb mixing 0
  then
    match dict_get kernel_params "kernel" with
    | None =>
        XXt <-- matmul (scale mixing X) (transpose X) ;;
        iadd K XXt
    | Some kernel =>
        if negb (kw_is kernel "precomputed")
        then
          P <-- pairwise_kernels X kernel_params ;;
          iadd K (scale mixing P)
        else iadd K (scale mixing X)
    end
  else Ok K.

End PCovR.

(** ** Vocabulary of the statements about [quick_shift_refinement] *)

(** The index that [recenter_body] picks for the cluster labelled [c]. *)
Definition cluster_argmax (probs : list R) (labels : list nat) (c : nat) : nat :=
  match argmax_from probs (ne_mask labels c) 0 None with
  | Some (i, _) => i
  | None => 0
  end.

(** The points that label themselves: what line 294 collects. *)
Definition fixed_points (labels : list nat) : list nat :=
  concat (argwhere (zip_with Nat.eqb labels (range (length labels)))).

(** Labels as [QuickShift] writes them: the label of a point is the index of
    the root of its tree, and a root labels itself. *)
Definition root_labels (labels : list nat) : Prop :=
  forall i l, nth_error labels i = Some l -> nth_error labels l = Some l.

(** [mark P f l]: the label [l] once the clusters listed in [P] have been
    given their new centers by [f]. *)
Definition mark (P : list nat) (f : nat -> nat) (l : nat) : nat :=
  if existsb (Nat.eqb l) P then f l else l.

(** ** Vocabulary of the statements about the covariances *)

(** The rows of a matrix agree with its shape. *)
Definition wf_matrix (A : matrix) : Prop :=
  length (rows A) = shape0 A /\
  Forall (fun row => length row = shape1 A) (rows A).

(** The weights that [_get_lcov_clusterp] gives the points: [Ntot] times the
    normalised density for the members of the cluster [idcl], zero for the
    rest. *)
Definition cluster_weights (Ntot : nat) (clroots : list nat) (idcl : nat)
    (probs : list R) : list R :=
  map (fun w => w * INR Ntot)%R
    (mask_put (repeat 0%R (length clroots)) (eq_mask clroots idcl)
       (map (fun p => exp (p - logsumexp probs))
            (compress probs (eq_mask clroots idcl)))).

(** The weights that [_get_lcov_cluster] gives the points: the density of
    the members of the cluster [idcl], normalised within the cluster, zero
    for the rest. *)
Definition member_weights (clroots : list nat) (idcl : nat) (probs : list R)
  : list R :=
  mask_put (repeat 0%R (length clroots)) (eq_mask clroots idcl)
    (map (fun p => exp (p - logsumexp (compress probs (eq_mask clroots idcl))))
         (compress probs (eq_mask clroots idcl))).

(** A column of coordinates wrapped into one period. *)
Definition wrap_column (period : R) (col : list R) : list R :=
  map (fun v => v - np_round (v / period) * period)%R col.

(** The effective variance of weighted angles: from the squared mean
    resultant length [r2] of the cosine and sine sums, corrected for the
    sample size [nlk]. *)
Definition circular_variance (ww angles : list R) : R :=
  let nlk := Rsum ww in
  let r2 := ((Rsum (zip_with Rmult ww (map cos angles)) / nlk) ^ 2 +
             (Rsum (zip_with Rmult ww (map sin angles)) / nlk) ^ 2)%R in
  let re2 := ((nlk / (nlk - 1)) * (r2 - (1 / nlk)))%R in
  (1 / (sqrt re2 * (2 - re2) / (1 - re2)))%R.

(** ** Vocabulary of the statements about errors *)

(** A computation that may fail, but not with the cell-dimension error. *)
Definition onot_cell {A : Type} (o : outcome A) : Prop :=
  forall e, o = Raise e -> e <> cell_error.

Definition not_cell {A : Type} (c : M A) : Prop :=
  forall w, onot_cell (fst (c w)).

(** ** Vocabulary of the further statements *)

(** What a call may do to the caller's world: the centers and the output
    stay, the labels keep their length. *)
Definition labels_only (w w' : world) : Prop :=
  w_centers w' = w_centers w /\
  w_stdout w' = w_stdout w /\
  length (w_labels w') = length (w_labels w).

(** The position of the label [l] in the list [u] of distinct labels. *)
Fixpoint index_of (l : nat) (u : list nat) : nat :=
  match u with
  | [] => 0
  | v :: u' => if v =? l then 0 else S (index_of l u')
  end.

(** A call that may print, and leaves the centers and the labels alone. *)
Definition output_only (w w' : world) : Prop :=
  w_centers w' = w_centers w /\ w_labels w' = w_labels w.

(** The labels after the passes [l] of the relabeling loop of lines
    446-447 over the distinct labels [u]. *)
Definition relabel_passes (u : list nat) (l : list nat) (labels : list nat)
  : list nat :=
  fold_left (fun lab k => relabel (nth k u 0) (k + 1) lab) l labels.

(** A list whose entries increase with their position. *)
Definition increasing (u : list nat) : Prop :=
  forall i j vi vj,
    nth_error u i = Some vi -> nth_error u j = Some vj -> i < j -> vi < vj.

(** The label [l] once the first [t] distinct labels of [u] have been given
    their new values. *)
Definition relabelled_upto (u : list nat) (t : nat) (l : nat) : nat :=
  if index_of l u <? t then S (index_of l u) else l.

(** Entry [(i, j)] of the product of [A] and [A.T]. *)
Definition gram (A : matrix) (i j : nat) : R :=
  Rsum (map (fun k => mget A i k * mget A j k)%R (range (shape1 A))).

(** * Properties *)

(** ** Rounding and the periodic displacement *)

Lemma Int_part_bounds (x : R) : (IZR (Int_part x) <= x < IZR (Int_part x) + 1)%R.
Proof.
  destruct (base_Int_part x) as [Hle Hgt]. split; lra.
Qed.

Lemma Int_part_unique (x : R) (n : Z) :
  (IZR n <= x < IZR n + 1)%R -> Int_part x = n.
Proof.
  intros [Hlo Hhi].
  destruct (Int_part_bounds x) as [Ilo Ihi].
  assert (H1 : (IZR (Int_part x) < IZR (n + 1))%R) by (rewrite plus_IZR; lra).
  assert (H2 : (IZR n < IZR (Int_part x + 1))%R) by (rewrite plus_IZR; lra).
  apply lt_IZR in H1. apply lt_IZR in H2. lia.
Qed.

Lemma round_half_even_near (x : R) :
  (- (1 / 2) <= x - IZR (round_half_even x) <= 1 / 2)%R.
Proof.
  unfold round_half_even.
  destruct (Int_part_bounds x) as [Ilo Ihi].
  destruct (Rlt_dec (x - IZR (Int_part x)) (1 / 2)) as [Hlt | Hge].
  - lra.
  - destruct (Rlt_dec (1 / 2) (x - IZR (Int_part x))) as [Hgt | Hle].
    + rewrite plus_IZR. lra.
    + destruct (Z.even (Int_part x)); [lra | rewrite plus_IZR; lra].
Qed.

Lemma round_half_even_small (x : R) :
  (- (1 / 2) <= x <= 1 / 2)%R -> round_half_even x = 0%Z.
Proof.
  intros [Hlo Hhi]. unfold round_half_even.
  destruct (Rle_lt_dec 0 x) as [Hpos | Hneg].
  - assert (HI : Int_part x = 0%Z) by (apply Int_part_unique; simpl; lra).
    rewrite HI. simpl.
    destruct (Rlt_dec (x - 0) (1 / 2)); [reflexivity |].
    destruct (Rlt_dec (1 / 2) (x - 0)); [lra | reflexivity].
  - assert (HI : Int_part x = (-1)%Z) by (apply Int_part_unique; simpl; lra).
    rewrite HI. simpl.
    destruct (Rlt_dec (x - -1) (1 / 2)); [lra |].
    destruct (Rlt_dec (1 / 2) (x - -1)); reflexivity.
Qed.

Lemma rij1_range (p xi xj : R) :
  (0 < p)%R -> (- (p / 2) <= rij1 p xi xj <= p / 2)%R.
Proof.
  intros Hp. unfold rij1, np_round.
  set (x := (xi - xj)%R).
  pose proof (round_half_even_near (x / p)) as [Hlo Hhi].
  set (n := IZR (round_half_even (x / p))) in *.
  assert (Hx : (x = x / p * p)%R) by (field; lra).
  assert (Hd : (x - n * p = (x / p - n) * p)%R) by (rewrite Hx at 1; ring).
  rewrite Hd. split; nra.
Qed.

Lemma rij1_small (p xi xj : R) :
  (0 < p)%R -> (Rabs (xi - xj) <= p / 2)%R -> rij1 p xi xj = (xi - xj)%R.
Proof.
  intros Hp Hab. unfold rij1, np_round.
  set (x := (xi - xj)%R) in *.
  assert (Hlo : (- (p / 2) <= x)%R /\ (x <= p / 2)%R).
  { unfold Rabs in Hab. destruct (Rcase_abs x); lra. }
  destruct Hlo as [Hlo Hhi].
  assert (Hq : (- (1 / 2) <= x / p <= 1 / 2)%R).
  { split.
    - apply Rmult_le_reg_r with p; [lra |]. unfold Rdiv at 2.
      rewrite Rmult_assoc, Rinv_l by lra. lra.
    - apply Rmult_le_reg_r with p; [lra |]. unfold Rdiv at 1.
      rewrite Rmult_assoc, Rinv_l by lra. lra. }
  rewrite (round_half_even_small _ Hq). simpl. ring.
Qed.

Lemma rij1_square_le (p xi xj : R) :
  (0 < p)%R -> (rij1 p xi xj * rij1 p xi xj <= (xi - xj) * (xi - xj))%R.
Proof.
  intros Hp.
  destruct (Rle_lt_dec (Rabs (xi - xj)) (p / 2)) as [Hs | Hl].
  - rewrite rij1_small by assumption. lra.
  - pose proof (rij1_range p xi xj Hp) as [Hlo Hhi].
    set (r := rij1 p xi xj) in *. set (x := (xi - xj)%R) in *.
    assert (Hr : (r * r <= (p / 2) * (p / 2))%R) by nra.
    assert (Hx : ((p / 2) * (p / 2) <= x * x)%R).
    { unfold Rabs in Hl. destruct (Rcase_abs x); nra. }
    lra.
Qed.

Lemma vop_ok (f : R -> R -> R) (a b : list R) :
  length a = length b -> vop f a b = Ok (zip_with f a b).
Proof.
  intros H. unfold vop. rewrite H, Nat.eqb_refl. reflexivity.
Qed.

Lemma zip_with_length {A B C : Type} (f : A -> B -> C) (a : list A) (b : list B) :
  length a = length b -> length (zip_with f a b) = length a.
Proof.
  revert b. induction a as [| x a IH]; intros [| y b] H; simpl in *; try lia.
  rewrite IH; lia.
Qed.

Lemma rij_periodic (P a b : list R) :
  length a = length P -> length b = length P ->
  rij (Some P) a b = Ok (rij_vec P a b).
Proof.
  intros Ha Hb. unfold rij.
  rewrite vop_ok by lia. simpl.
  rewrite vop_ok by (rewrite zip_with_length; lia). simpl.
  rewrite vop_ok
    by (rewrite length_map, zip_with_length; rewrite zip_with_length; lia).
  simpl.
  rewrite vop_ok
    by (rewrite !zip_with_length; rewrite ?length_map, ?zip_with_length;
        rewrite ?zip_with_length; lia).
  f_equal. clear Ha Hb. revert a b.
  induction P as [| p P IH]; intros [| x a] [| y b]; simpl; try reflexivity.
  f_equal. apply IH.
Qed.

Lemma rij_plain (a b : list R) :
  length a = length b -> rij None a b = Ok (zip_with Rminus a b).
Proof.
  intros H. unfold rij. rewrite vop_ok by assumption. reflexivity.
Qed.

Lemma rij_vec_length (P a b : list R) :
  length a = length P -> length b = length P -> length (rij_vec P a b) = length P.
Proof.
  revert a b. induction P as [| p P IH]; intros [| x a] [| y b] Ha Hb;
    simpl in *; try lia.
  rewrite IH; lia.
Qed.

Lemma rij_vec_nth (P a b : list R) (k : nat) :
  length a = length P -> length b = length P -> k < length P ->
  nth k (rij_vec P a b) 0%R = rij1 (nth k P 0%R) (nth k a 0%R) (nth k b 0%R).
Proof.
  revert a b k. induction P as [| p P IH]; intros [| x a] [| y b] k Ha Hb Hk;
    simpl in *; try lia.
  destruct k as [| k]; [reflexivity |]. apply IH; lia.
Qed.

Lemma sum_squares_le (P a b : list R) :
  length a = length P -> length b = length P -> Forall (fun p => 0 < p)%R P ->
  (Rsum (map (fun x => x * x) (rij_vec P a b))
   <= Rsum (map (fun x => x * x) (zip_with Rminus a b)))%R.
Proof.
  revert a b. induction P as [| p P IH]; intros [| x a] [| y b] Ha Hb HP;
    simpl in *; try lia; try lra.
  inversion HP as [| ? ? Hp HP']; subst.
  pose proof (rij1_square_le p x y Hp).
  specialize (IH a b ltac:(lia) ltac:(lia) HP'). lra.
Qed.

Lemma rij_vec_small (P a b : list R) :
  length a = length P -> length b = length P -> Forall (fun p => 0 < p)%R P ->
  (forall k, k < length P ->
     (Rabs (nth k a 0 - nth k b 0) <= nth k P 0 / 2)%R) ->
  rij_vec P a b = zip_with Rminus a b.
Proof.
  revert a b. induction P as [| p P IH]; intros [| x a] [| y b] Ha Hb HP Hs;
    simpl in *; try lia; try reflexivity.
  inversion HP as [| ? ? Hp HP']; subst.
  f_equal.
  - apply rij1_small; [assumption |]. apply (Hs 0). lia.
  - apply IH; try lia; [assumption |].
    intros k Hk. apply (Hs (S k)). lia.
Qed.

(** C3 (as amended): with positive periods, every coordinate of the
    displacement that [rij] returns lies in the closed range
    [[-P/2, P/2]]; the periodic distance is at most the Euclidean one, and
    equals it when every coordinate difference is at most [P/2] in absolute
    value. *)
Theorem rij_range_and_distance (P a b : list R) :
  length a = length P -> length b = length P ->
  Forall (fun p => 0 < p)%R P ->
  exists d dp de,
    rij (Some P) a b = Ok d /\
    periodic_distance (Some P) a b = Ok dp /\
    euclidean_distance a b = Ok de /\
    length d = length P /\
    (forall k, k < length P ->
       (- (nth k P 0 / 2) <= nth k d 0 <= nth k P 0 / 2)%R) /\
    (dp <= de)%R /\
    ((forall k, k < length P ->
        (Rabs (nth k a 0 - nth k b 0) <= nth k P 0 / 2)%R) -> dp = de).
Proof.
  intros Ha Hb HP.
  exists (rij_vec P a b).
  exists (sqrt (Rsum (map (fun x => x * x)%R (rij_vec P a b)))).
  exists (sqrt (Rsum (map (fun x => x * x)%R (zip_with Rminus a b)))).
  split; [apply rij_periodic; assumption |].
  split; [unfold periodic_distance; rewrite rij_periodic by assumption; reflexivity |].
  split.
  { unfold euclidean_distance, periodic_distance.
    rewrite rij_plain by lia. reflexivity. }
  split; [apply rij_vec_length; assumption |].
  split.
  { intros k Hk. rewrite rij_vec_nth by assumption.
    apply rij1_range.
    rewrite Forall_forall in HP. apply HP. apply nth_In. assumption. }
  split.
  { apply sqrt_le_1_alt. apply sum_squares_le; assumption. }
  intros Hs. rewrite rij_vec_small by assumption. reflexivity.
Qed.

Lemma rij_range_and_distance_witness :
  exists d dp de,
    rij (Some [2%R]) [0%R] [1%R] = Ok d /\
    periodic_distance (Some [2%R]) [0%R] [1%R] = Ok dp /\
    euclidean_distance [0%R] [1%R] = Ok de /\
    length d = 1 /\
    (forall k, k < 1 ->
       (- (nth k [2] 0 / 2) <= nth k d 0 <= nth k [2] 0 / 2)%R) /\
    (dp <= de)%R /\
    ((forall k, k < 1 ->
        (Rabs (nth k [0] 0 - nth k [1] 0) <= nth k [2] 0 / 2)%R) -> dp = de).
Proof.
  apply (rij_range_and_distance [2%R] [0%R] [1%R]).
  - reflexivity.
  - reflexivity.
  - constructor; [lra | constructor].
Defined.

(** C3, as stated, fails at the lower end of the range: with period 2 the
    points 0 and 1 are displaced by [-1 = -P/2], which the half-open range
    [(-P/2, P/2]] excludes ([np.round] sends the tie [-0.5] to the even
    integer [0]). *)
Lemma rij_reaches_lower_endpoint :
  rij (Some [2%R]) [0%R] [1%R] = Ok [(-1)%R] /\
  ~ (- (2 / 2) < -1 <= 2 / 2)%R.
Proof.
  split; [| lra].
  rewrite rij_periodic by reflexivity. simpl. unfold rij1, np_round.
  rewrite round_half_even_small by lra.
  do 2 f_equal. simpl. lra.
Qed.

(** ** Arrays and the state monad *)

Ltac unfold_monad :=
  unfold read_local in *;
  unfold bind, ret, lift, raise, get_centers, get_labels, put_centers, put_labels,
    print in *;
  cbv beta iota in *.

Lemma world_eta (w : world) : World (w_centers w) (w_labels w) (w_stdout w) = w.
Proof. destruct w; reflexivity. Qed.

Lemma relabel_same (c : nat) (labels : list nat) : relabel c c labels = labels.
Proof.
  unfold relabel. rewrite <- (map_id labels) at 2.
  apply map_ext. intros l. destruct (Nat.eqb_spec l c); congruence.
Qed.

Lemma getitem_Some {A : Type} (a : list A) (i : nat) (x : A) :
  nth_error a i = Some x -> getitem a i = Ok x.
Proof. intros H. unfold getitem. rewrite H. reflexivity. Qed.

Lemma getitem_lt {A : Type} (a : list A) (i : nat) :
  i < length a -> exists x, nth_error a i = Some x /\ getitem a i = Ok x.
Proof.
  intros H. destruct (nth_error a i) as [x |] eqn:E.
  - exists x. split; [reflexivity | apply getitem_Some; assumption].
  - apply nth_error_None in E. lia.
Qed.

Lemma set_nth_length {A : Type} (a : list A) (i : nat) (v : A) :
  length (set_nth a i v) = length a.
Proof.
  revert i. induction a as [| x a IH]; intros [| i]; simpl; try reflexivity.
  rewrite IH. reflexivity.
Qed.

Lemma set_nth_same {A : Type} (a : list A) (i : nat) (v : A) :
  i < length a -> nth_error (set_nth a i v) i = Some v.
Proof.
  revert i. induction a as [| x a IH]; intros [| i] H; simpl in *; try lia.
  - reflexivity.
  - apply IH. lia.
Qed.

Lemma set_nth_other {A : Type} (a : list A) (i j : nat) (v : A) :
  i <> j -> nth_error (set_nth a i v) j = nth_error a j.
Proof.
  revert i j. induction a as [| x a IH]; intros [| i] [| j] H; simpl;
    try reflexivity; try congruence.
  apply IH. congruence.
Qed.

Lemma setitem_lt {A : Type} (a : list A) (i : nat) (v : A) :
  i < length a -> setitem a i v = Ok (set_nth a i v).
Proof.
  intros H. unfold setitem.
  destruct (Nat.ltb_spec i (length a)); [reflexivity | lia].
Qed.

Lemma Rltb_true (x y : R) : (x < y)%R -> Rltb x y = true.
Proof. intros H. unfold Rltb. destruct (Rlt_dec x y); [reflexivity | contradiction]. Qed.

Lemma Rltb_false (x y : R) : (y <= x)%R -> Rltb x y = false.
Proof. intros H. unfold Rltb. destruct (Rlt_dec x y); [lra | reflexivity]. Qed.

Lemma Rltb_spec (x y : R) : Rltb x y = true <-> (x < y)%R.
Proof.
  unfold Rltb. destruct (Rlt_dec x y); split; intros; try assumption;
    try reflexivity; try discriminate; contradiction.
Qed.

(** ** Which errors the later phases can raise *)

Lemma onot_cell_Ok {A : Type} (a : A) : onot_cell (Ok a).
Proof. intros e H. discriminate. Qed.

Lemma onot_cell_obind {A B : Type} (c : outcome A) (k : A -> outcome B) :
  onot_cell c -> (forall a, onot_cell (k a)) -> onot_cell (obind c k).
Proof.
  intros Hc Hk e H. destruct c as [a | e']; simpl in H.
  - exact (Hk a e H).
  - inversion H; subst. apply Hc. reflexivity.
Qed.

Lemma onot_cell_ofor_each {S : Type} (l : list nat) (body : nat -> S -> outcome S)
    (s : S) :
  (forall i s', onot_cell (body i s')) -> onot_cell (ofor_each l body s).
Proof.
  intros Hb. revert s. induction l as [| i l IH]; intros s; simpl.
  - apply onot_cell_Ok.
  - apply onot_cell_obind; [apply Hb | intros a; apply IH].
Qed.

Lemma not_cell_ret {A : Type} (a : A) : not_cell (ret a).
Proof. intros w. apply onot_cell_Ok. Qed.

Lemma not_cell_lift {A : Type} (o : outcome A) : onot_cell o -> not_cell (lift o).
Proof. intros H w. exact H. Qed.

Lemma not_cell_bind {A B : Type} (c : M A) (k : A -> M B) :
  not_cell c -> (forall a, not_cell (k a)) -> not_cell (bind c k).
Proof.
  intros Hc Hk w e H. unfold bind in H. specialize (Hc w).
  destruct (c w) as [[a | e'] w']; simpl in *.
  - exact (Hk a w' e H).
  - inversion H; subst. apply Hc. reflexivity.
Qed.

Lemma not_cell_for_each {S : Type} (l : list nat) (body : nat -> S -> M S) (s : S) :
  (forall i s', not_cell (body i s')) -> not_cell (for_each l body s).
Proof.
  intros Hb. revert s. induction l as [| i l IH]; intros s; simpl.
  - apply not_cell_ret.
  - apply not_cell_bind; [apply Hb | intros a; apply IH].
Qed.

Lemma not_cell_get_centers : not_cell get_centers.
Proof. intros w e H. discriminate. Qed.

Lemma not_cell_get_labels : not_cell get_labels.
Proof. intros w e H. discriminate. Qed.

Lemma not_cell_put_centers (c : list nat) : not_cell (put_centers c).
Proof. intros w e H. discriminate. Qed.

Lemma not_cell_put_labels (l : list nat) : not_cell (put_labels l).
Proof. intros w e H. discriminate. Qed.

Lemma not_cell_print (line : string) : not_cell (print line).
Proof. intros w e H. discriminate. Qed.

Lemma not_cell_read_local (name : string) (v : option nat) :
  name <> "Cell dimension does not match the data dimension." ->
  not_cell (read_local name v).
Proof.
  intros Hn w e H. destruct v; simpl in H; [discriminate |].
  inversion H; subst. discriminate.
Qed.

(** The primitives raise errors of their own. *)
Ltac prim_not_cell :=
  let e := fresh "e" in
  let H := fresh "H" in
  intros e H;
  repeat match type of H with
         | context [if ?b then _ else _] => destruct b
         | context [match ?x with _ => _ end] => destruct x
         end;
  inversion H; subst; discriminate.

Lemma onot_cell_getitem {A : Type} (a : list A) (i : nat) : onot_cell (getitem a i).
Proof. unfold getitem. prim_not_cell. Qed.

Lemma onot_cell_setitem {A : Type} (a : list A) (i : nat) (v : A) :
  onot_cell (setitem a i v).
Proof. unfold setitem. prim_not_cell. Qed.

Lemma onot_cell_mask_select {A : Type} (a : list A) (mask : list bool) :
  onot_cell (mask_select a mask).
Proof. unfold mask_select. prim_not_cell. Qed.

Lemma onot_cell_mask_assign (a : list R) (mask : list bool) (vals : list R) :
  onot_cell (mask_assign a mask vals).
Proof. unfold mask_assign. prim_not_cell. Qed.

Lemma onot_cell_masked_argmax (a : list R) (mask : list bool) :
  onot_cell (masked_argmax a mask).
Proof. unfold masked_argmax. prim_not_cell. Qed.

Lemma onot_cell_np_concatenate (arrays : list (list nat)) :
  onot_cell (np_concatenate arrays).
Proof. unfold np_concatenate. prim_not_cell. Qed.

Lemma onot_cell_vop (f : R -> R -> R) (a b : list R) : onot_cell (vop f a b).
Proof. unfold vop. prim_not_cell. Qed.

Lemma onot_cell_set_col (A : matrix) (j : nat) (col : list R) :
  onot_cell (set_col A j col).
Proof. unfold set_col. prim_not_cell. Qed.

Lemma onot_cell_mset (A : matrix) (i j : nat) (v : R) : onot_cell (mset A i j v).
Proof. unfold mset. prim_not_cell. Qed.

Lemma onot_cell_cluster_mass (p : list R) (labels : list nat) (c : nat) (n : R) :
  onot_cell (cluster_mass p labels c n).
Proof.
  unfold cluster_mass. apply onot_cell_obind;
    [apply onot_cell_mask_select | intros; apply onot_cell_Ok].
Qed.

Create HintDb nocell.

#[local] Hint Resolve onot_cell_Ok onot_cell_getitem onot_cell_setitem
  onot_cell_mask_select onot_cell_mask_assign onot_cell_masked_argmax
  onot_cell_np_concatenate onot_cell_vop onot_cell_set_col onot_cell_mset
  onot_cell_cluster_mass not_cell_ret not_cell_get_centers not_cell_get_labels
  not_cell_put_centers not_cell_put_labels not_cell_print : nocell.

(** Walks down a chain of binds. *)
Ltac nocell :=
  repeat first
    [ progress auto with nocell
    | progress cbv zeta
    | apply not_cell_bind; [| intros ?]
    | apply onot_cell_obind; [| intros ?]
    | apply not_cell_lift
    | apply not_cell_for_each; intros ? ?
    | apply onot_cell_ofor_each; intros ? ?
    | apply not_cell_read_local; discriminate
    | match goal with
      | |- not_cell (if ?b then _ else _) => destruct b
      | |- onot_cell (if ?b then _ else _) => destruct b
      | |- not_cell (match ?x with _ => _ end) => destruct x
      | |- onot_cell (match ?x with _ => _ end) => destruct x
      end ].

(** ** The merge loop of [quick_shift_refinement] *)

Section RefinementFacts.

Variable metric : list R -> list R -> option (list R) -> R.
Variable X : matrix.
Variable probs : list R.
Variable thrpcl : R.

(** The flag loop writes to no caller array. *)
Lemma flag_loop_world (normpks : R) (l : list nat) (s : list bool * option nat)
    (w : world) :
  snd (for_each l (flag_body probs thrpcl normpks) s w) = w.
Proof.
  revert s. induction l as [| k l IH]; intros s; simpl.
  - reflexivity.
  - unfold bind at 1. unfold flag_body at 1. unfold_monad.
    destruct (getitem (w_centers w) k) as [c |]; [| reflexivity].
    destruct (cluster_mass probs (w_labels w) c normpks) as [m |]; [| reflexivity].
    destruct (setitem (fst s) k (Rgtb m thrpcl)) as [tm |]; [| reflexivity].
    apply IH.
Qed.

(** On return [to_merge] still has [nk] entries and [k] is the last index
    that the loop visited. *)
Lemma flag_loop_locals (normpks : R) (a n : nat) (s : list bool * option nat)
    (w : world) (tm : list bool) (k : option nat) (w' : world) :
  for_each (seq a n) (flag_body probs thrpcl normpks) s w = (Ok (tm, k), w') ->
  length tm = length (fst s) /\
  k = match n with 0 => snd s | S _ => Some (a + n - 1) end /\
  (0 < n -> a + n - 1 < length tm).
Proof.
  revert a s. induction n as [| n IH]; intros a s H; simpl in H.
  - unfold_monad. inversion H; subst. repeat split; simpl; try reflexivity; lia.
  - unfold bind at 1 in H. unfold flag_body at 1 in H. unfold_monad.
    destruct (getitem (w_centers w) a) as [c |]; [| discriminate].
    destruct (cluster_mass probs (w_labels w) c normpks) as [m |]; [| discriminate].
    unfold setitem in H.
    destruct (Nat.ltb_spec a (length (fst s))) as [Ha |]; [| discriminate].
    apply IH in H. simpl in H. rewrite set_nth_length in H.
    destruct H as [Hlen [Hk Hlt]]. split; [assumption |]. split.
    + rewrite Hk. destruct n as [| n]; f_equal; lia.
    + intros _. destruct n as [| n]; [lia |].
      specialize (Hlt ltac:(lia)). lia.
Qed.

(** With the flag at [k] set, the search over [j] skips every candidate. *)
Lemma merge_inner_skips (cell : option (list R)) (to_merge : list bool) (kk i c : nat)
    (l : list nat) (d : option R) (w : world) :
  nth_error to_merge kk = Some true ->
  for_each l (merge_inner_body metric X cell to_merge (Some kk) i c) d w = (Ok d, w).
Proof.
  intros Hk. induction l as [| j l IH]; simpl.
  - reflexivity.
  - unfold bind at 1. unfold merge_inner_body at 1. unfold_monad.
    rewrite (getitem_Some _ _ _ Hk). assumption.
Qed.

Lemma merge_body_noop (cell : option (list R)) (to_merge : list bool) (kk nk i : nat)
    (w : world) :
  kk < length to_merge -> i < length (w_centers w) ->
  merge_body metric X cell to_merge (Some kk) nk i tt w = (Ok tt, w).
Proof.
  intros Hk Hi. unfold merge_body. unfold_monad.
  destruct (getitem_lt to_merge kk Hk) as [flag [Hflag ->]].
  destruct flag; simpl; [| reflexivity].
  destruct (getitem_lt (w_centers w) i Hi) as [c [_ Hc]].
  rewrite Hc. rewrite merge_inner_skips by assumption.
  rewrite Hc. rewrite relabel_same. rewrite world_eta. reflexivity.
Qed.

(** The merge loop returns with both caller arrays as it found them. *)
Lemma merge_loop_noop (cell : option (list R)) (to_merge : list bool) (kk nk : nat)
    (l : list nat) (w : world) :
  kk < length to_merge -> Forall (fun i => i < length (w_centers w)) l ->
  for_each l (merge_body metric X cell to_merge (Some kk) nk) tt w = (Ok tt, w).
Proof.
  intros Hk Hl. induction l as [| i l IH]; simpl.
  - reflexivity.
  - inversion Hl as [| ? ? Hi Hl']; subst.
    unfold bind. rewrite merge_body_noop by assumption. apply IH. assumption.
Qed.

Lemma range_bound (n : nat) : Forall (fun i => i < n) (range n).
Proof.
  apply Forall_forall. intros i Hi. apply in_seq in Hi. lia.
Qed.

(** Flag loop, then merge loop: on return the world is the caller's. *)
Lemma flag_then_merge (cell : option (list R)) (normpks : R) (w : world) :
  let nk := length (w_centers w) in
  match for_each (range nk) (flag_body probs thrpcl normpks) (repeat false nk, None) w
  with
  | (Ok (to_merge, k), w1) =>
      w1 = w /\ length to_merge = nk /\
      for_each (range nk) (merge_body metric X cell to_merge k nk) tt w1 = (Ok tt, w)
  | (Raise _, w1) => w1 = w
  end.
Proof.
  intros nk.
  pose proof (flag_loop_world normpks (range nk) (repeat false nk, None) w) as Hw.
  destruct (for_each (range nk) (flag_body probs thrpcl normpks)
              (repeat false nk, None) w) as [[[tm k] | e] w1] eqn:E;
    simpl in Hw; subst w1; [| reflexivity].
  apply flag_loop_locals in E. simpl in E. rewrite repeat_length in E.
  destruct E as [Hlen [Hk Hlt]].
  split; [reflexivity |]. split; [assumption |].
  destruct nk as [| nk'] eqn:Enk.
  - reflexivity.
  - rewrite Hk. apply merge_loop_noop; [lia |].
    rewrite <- Enk. subst nk. apply range_bound.
Qed.

(** ** The masked arg-max *)

Lemma argmax_from_inv (a : list R) (mask : list bool) (i : nat)
    (best : option (nat * R)) :
  length a = length mask ->
  match argmax_from a mask i best with
  | Some (ri, rx) =>
      (best = Some (ri, rx) \/
       (i <= ri /\ nth_error mask (ri - i) = Some false /\
        nth_error a (ri - i) = Some rx)) /\
      (forall bi bx, best = Some (bi, bx) -> (bx <= rx)%R) /\
      (forall j x, nth_error mask j = Some false -> nth_error a j = Some x ->
                   (x <= rx)%R)
  | None => best = None /\ forall j, j < length a -> nth_error mask j = Some true
  end.
Proof.
  revert mask i best. induction a as [| x a IH]; intros [| b mask] i best Hlen;
    simpl in Hlen; try lia.
  - simpl. destruct best as [[bi bx] |].
    + split; [left; reflexivity |]. split.
      * intros ? ? E. inversion E; subst. lra.
      * intros [| j] ? Hj; discriminate.
    + split; [reflexivity | intros j Hj; simpl in Hj; lia].
  - simpl argmax_from. destruct b.
    + specialize (IH mask (S i) best ltac:(lia)).
      destruct (argmax_from a mask (S i) best) as [[ri rx] |].
      * destruct IH as [Hsrc [Hbest Hall]]. split; [| split].
        -- destruct Hsrc as [-> | [Hle [Hm Ha]]]; [left; reflexivity | right].
           replace (ri - i) with (S (ri - S i)) by lia. simpl.
           repeat split; [lia | assumption | assumption].
        -- assumption.
        -- intros [| j] y Hm Ha; simpl in Hm, Ha; [discriminate |].
           eapply Hall; eassumption.
      * destruct IH as [-> Hall]. split; [reflexivity |].
        intros [| j] Hj; simpl in *; [reflexivity | apply Hall; lia].
    + set (best' := match best with
                    | Some (_, y) => if Rltb y x then Some (i, x) else best
                    | None => Some (i, x)
                    end).
      specialize (IH mask (S i) best' ltac:(lia)).
      assert (Hb' : exists vi v, best' = Some (vi, v) /\ (x <= v)%R /\
                (forall bi bx, best = Some (bi, bx) -> (bx <= v)%R) /\
                (best = Some (vi, v) \/ (vi = i /\ v = x))).
      { subst best'. destruct best as [[bi y] |].
        - destruct (Rltb y x) eqn:E.
          + apply Rltb_spec in E. exists i, x. repeat split; try lra.
            * intros ? ? E'. inversion E'; subst. lra.
            * right; split; reflexivity.
          + exists bi, y. assert (~ (y < x)%R) by (rewrite <- Rltb_spec; congruence).
            repeat split; try lra.
            * intros ? ? E'. inversion E'; subst. lra.
            * left; reflexivity.
        - exists i, x. repeat split; try lra.
          + intros ? ? E'. discriminate.
          + right; split; reflexivity. }
      destruct Hb' as [vi [v [Hb' [Hxv [Hold Hsrc']]]]].
      destruct (argmax_from a mask (S i) best') as [[ri rx] |].
      * destruct IH as [Hsrc [Hbest Hall]].
        pose proof (Hbest vi v Hb') as Hv. split; [| split].
        -- destruct Hsrc as [E | [Hle [Hm Ha]]].
           ++ rewrite Hb' in E. inversion E; subst.
              destruct Hsrc' as [-> | [-> ->]]; [left; reflexivity | right].
              rewrite Nat.sub_diag. simpl. repeat split. lia.
           ++ right. replace (ri - i) with (S (ri - S i)) by lia. simpl.
              repeat split; [lia | assumption | assumption].
        -- intros bi bx E. specialize (Hold bi bx E). lra.
        -- intros [| j] y Hm Ha; simpl in Hm, Ha.
           ++ inversion Ha; subst. lra.
           ++ eapply Hall; eassumption.
      * destruct IH as [E _]. rewrite Hb' in E. discriminate.
Qed.

Lemma ne_mask_nth (labels : list nat) (c j : nat) :
  nth_error (ne_mask labels c) j = Some false <-> nth_error labels j = Some c.
Proof.
  unfold ne_mask. rewrite nth_error_map.
  destruct (nth_error labels j) as [l |]; simpl; [| split; discriminate].
  destruct (Nat.eqb_spec l c); simpl; split; intros E; try discriminate;
    try (f_equal; assumption); try reflexivity.
  inversion E. contradiction.
Qed.

(** The arg-max of a cluster with a member: it is a member, and no member
    has a larger density. *)
Lemma cluster_argmax_spec (p : list R) (labels : list nat) (c m : nat) :
  length p = length labels -> nth_error labels m = Some c ->
  nth_error labels (cluster_argmax p labels c) = Some c /\
  (forall j, nth_error labels j = Some c ->
     (nth j p 0 <= nth (cluster_argmax p labels c) p 0)%R).
Proof.
  intros Hlen Hm. unfold cluster_argmax.
  pose proof (argmax_from_inv p (ne_mask labels c) 0 None) as H.
  unfold ne_mask in H at 1. rewrite length_map in H. specialize (H Hlen).
  destruct (argmax_from p (ne_mask labels c) 0 None) as [[ri rx] |].
  - destruct H as [Hsrc [_ Hall]].
    destruct Hsrc as [E | [_ [Hmask Hval]]]; [discriminate |].
    rewrite Nat.sub_0_r in Hmask, Hval.
    split; [apply ne_mask_nth; assumption |].
    intros j Hj. rewrite (nth_error_nth _ _ _ Hval).
    assert (Hjlt : j < length p).
    { rewrite Hlen. apply nth_error_Some. congruence. }
    destruct (nth_error p j) as [x |] eqn:Ex;
      [| apply nth_error_None in Ex; lia].
    rewrite (nth_error_nth _ _ _ Ex).
    apply (Hall j x); [apply ne_mask_nth; assumption | assumption].
  - destruct H as [_ Hall].
    assert (Hmlt : m < length p).
    { rewrite Hlen. apply nth_error_Some. congruence. }
    specialize (Hall m Hmlt). apply ne_mask_nth in Hm. congruence.
Qed.

(** ** The points that label themselves *)

Lemma argwhere_from_in (mask : list bool) (a i : nat) :
  In i (concat (argwhere_from mask a)) <->
  a <= i /\ nth_error mask (i - a) = Some true.
Proof.
  revert a. induction mask as [| b mask IH]; intros a; simpl.
  - split; [contradiction |]. intros [_ H]. destruct (i - a); discriminate.
  - assert (Hrest : In i (concat (argwhere_from mask (S a))) <->
                    a < i /\ nth_error (b :: mask) (i - a) = Some true).
    { rewrite IH. split.
      - intros [Hle Hn]. split; [lia |].
        replace (i - a) with (S (i - S a)) by lia. assumption.
      - intros [Hlt Hn]. split; [lia |].
        replace (i - a) with (S (i - S a)) in Hn by lia. assumption. }
    destruct b; simpl.
    + rewrite Hrest. split.
      * intros [<- | [Hlt Hn]]; [| split; [lia | assumption]].
        rewrite Nat.sub_diag. split; [lia | reflexivity].
      * intros [Hle Hn]. destruct (Nat.eq_dec a i) as [-> | Hne];
          [left; reflexivity | right; split; [lia | assumption]].
    + rewrite Hrest. split.
      * intros [Hlt Hn]. split; [lia | assumption].
      * intros [Hle Hn]. split; [| assumption].
        destruct (Nat.eq_dec a i) as [-> | Hne]; [| lia].
        rewrite Nat.sub_diag in Hn. discriminate.
Qed.

Lemma argwhere_from_NoDup (mask : list bool) (a : nat) :
  NoDup (concat (argwhere_from mask a)).
Proof.
  revert a. induction mask as [| b mask IH]; intros a; simpl.
  - constructor.
  - destruct b; simpl; [| apply IH].
    constructor; [| apply IH].
    rewrite argwhere_from_in. lia.
Qed.

Lemma np_concatenate_ok (mask : list bool) (i : nat) :
  In i (concat (argwhere mask)) ->
  np_concatenate (argwhere mask) = Ok (concat (argwhere mask)).
Proof.
  intros H. unfold np_concatenate.
  destruct (argwhere mask); [contradiction | reflexivity].
Qed.

Lemma zip_with_nth_error {A B C : Type} (f : A -> B -> C) (a : list A) (b : list B)
    (i : nat) :
  nth_error (zip_with f a b) i =
  match nth_error a i, nth_error b i with
  | Some x, Some y => Some (f x y)
  | _, _ => None
  end.
Proof.
  revert b i. induction a as [| x a IH]; intros [| y b] [| i]; simpl;
    try reflexivity.
  - destruct (nth_error a i); reflexivity.
  - apply IH.
Qed.

Lemma range_nth_error (n i : nat) : i < n -> nth_error (range n) i = Some i.
Proof.
  intros H. unfold range.
  rewrite (nth_error_nth' _ 0) by (rewrite length_seq; assumption).
  rewrite seq_nth by assumption. reflexivity.
Qed.

Lemma fixed_points_in (labels : list nat) (c : nat) :
  In c (fixed_points labels) <-> nth_error labels c = Some c.
Proof.
  unfold fixed_points, argwhere. rewrite argwhere_from_in, Nat.sub_0_r.
  rewrite zip_with_nth_error.
  destruct (nth_error labels c) as [l |] eqn:E.
  - assert (Hc : c < length labels) by (apply nth_error_Some; congruence).
    rewrite range_nth_error by assumption.
    destruct (Nat.eqb_spec l c) as [-> | Hne].
    + split; intros _; [reflexivity | split; [lia | reflexivity]].
    + split; [intros [_ H]; discriminate | intros H; inversion H; contradiction].
  - split; [intros [_ H]; discriminate | discriminate].
Qed.

Lemma fixed_points_NoDup (labels : list nat) : NoDup (fixed_points labels).
Proof. apply argwhere_from_NoDup. Qed.

(** ** The re-centering loop *)

Lemma masked_argmax_ok (p : list R) (labels : list nat) (c : nat) :
  length p = length labels -> p <> [] ->
  masked_argmax p (ne_mask labels c) = Ok (cluster_argmax p labels c).
Proof.
  intros Hlen Hne. unfold masked_argmax, ne_mask.
  rewrite length_map, Hlen, Nat.eqb_refl. simpl.
  destruct p; [contradiction | reflexivity].
Qed.

Lemma recenter_body_run (i : nat) (cs : list nat) (w : world) (c : nat) :
  nth_error cs i = Some c -> length probs = length (w_labels w) -> probs <> [] ->
  recenter_body probs i cs w =
  (Ok (set_nth cs i (cluster_argmax probs (w_labels w) c)),
   World (w_centers w)
         (relabel c (cluster_argmax probs (w_labels w) c) (w_labels w))
         (w_stdout w)).
Proof.
  intros Hc Hlen Hne. unfold recenter_body. unfold_monad.
  rewrite (getitem_Some _ _ _ Hc).
  rewrite masked_argmax_ok by assumption.
  assert (Hi : i < length cs) by (apply nth_error_Some; congruence).
  rewrite setitem_lt by assumption.
  rewrite (getitem_Some _ _ _ (set_nth_same cs i _ Hi)).
  reflexivity.
Qed.

Lemma skipn_nth_error {A : Type} (l : list A) (a : nat) (x : A) :
  nth_error l a = Some x -> skipn a l = x :: skipn (S a) l.
Proof.
  revert a. induction l as [| y l IH]; intros [| a] H; simpl in *;
    try discriminate.
  - inversion H. reflexivity.
  - rewrite (IH a H). reflexivity.
Qed.

Lemma skipn_set_nth {A : Type} (l : list A) (a : nat) (v : A) :
  skipn (S a) (set_nth l a v) = skipn (S a) l.
Proof.
  revert a. induction l as [| y l IH]; intros [| a]; simpl; try reflexivity.
  apply IH.
Qed.

Lemma firstn_set_nth {A : Type} (l : list A) (a : nat) (v : A) :
  a < length l -> firstn (S a) (set_nth l a v) = firstn a l ++ [v].
Proof.
  revert a. induction l as [| y l IH]; intros [| a] H; simpl in *; try lia.
  - reflexivity.
  - f_equal. apply IH. lia.
Qed.

Section RecenterLoop.

(** The labels on entry to the loop. *)
Variable L : list nat.
Hypothesis L_length : length probs = length L.
Hypothesis L_roots : root_labels L.

Let am : nat -> nat := cluster_argmax probs L.
Let fixed (c : nat) : Prop := nth_error L c = Some c.

Lemma am_member (c : nat) : fixed c -> nth_error L (am c) = Some c.
Proof.
  intros Hc. apply (cluster_argmax_spec probs L c c L_length Hc).
Qed.

Lemma am_not_root (c l : nat) : fixed c -> fixed l -> l <> c -> am l <> c.
Proof.
  intros Hc Hl Hne E. pose proof (am_member l Hl) as H.
  rewrite E in H. unfold fixed in Hc. congruence.
Qed.

Lemma mark_of_label (P : list nat) (c l : nat) :
  fixed c -> ~ In c P -> Forall fixed P -> fixed l ->
  (mark P am l =? c) = (l =? c).
Proof.
  intros Hc HcP HP Hl. unfold mark.
  destruct (existsb (Nat.eqb l) P) eqn:E; [| reflexivity].
  apply existsb_exists in E. destruct E as [x [Hx Heq]].
  apply Nat.eqb_eq in Heq. subst x.
  assert (Hne : l <> c) by (intros ->; contradiction).
  destruct (Nat.eqb_spec (am l) c) as [E |]; destruct (Nat.eqb_spec l c);
    try reflexivity; try contradiction.
  exfalso. exact (am_not_root c l Hc Hl Hne E).
Qed.

Lemma labels_are_roots (l : nat) : In l L -> fixed l.
Proof.
  intros H. apply In_nth_error in H. destruct H as [i Hi].
  exact (L_roots i l Hi).
Qed.

Lemma ne_mask_mark (P : list nat) (c : nat) :
  fixed c -> ~ In c P -> Forall fixed P ->
  ne_mask (map (mark P am) L) c = ne_mask L c.
Proof.
  intros Hc HcP HP. unfold ne_mask. rewrite map_map.
  apply map_ext_in. intros l Hl.
  rewrite mark_of_label by (try assumption; apply labels_are_roots; assumption).
  reflexivity.
Qed.

Lemma relabel_mark (P : list nat) (c : nat) :
  fixed c -> ~ In c P -> Forall fixed P ->
  relabel c (am c) (map (mark P am) L) = map (mark (c :: P) am) L.
Proof.
  intros Hc HcP HP. unfold relabel. rewrite map_map.
  apply map_ext_in. intros l Hl.
  rewrite mark_of_label by (try assumption; apply labels_are_roots; assumption).
  unfold mark at 2. simpl.
  destruct (Nat.eqb_spec l c) as [-> | Hne]; [reflexivity |].
  simpl. reflexivity.
Qed.

Lemma recenter_loop (n : nat) :
  forall (a : nat) (cs : list nat) (w : world) (P : list nat),
    probs <> [] ->
    a + n = length cs ->
    w_labels w = map (mark P am) L ->
    Forall fixed P ->
    Forall (fun c => fixed c /\ ~ In c P) (skipn a cs) ->
    NoDup (skipn a cs) ->
    for_each (seq a n) (recenter_body probs) cs w =
    (Ok (firstn a cs ++ map am (skipn a cs)),
     World (w_centers w) (map (mark (rev (skipn a cs) ++ P) am) L) (w_stdout w)).
Proof.
  induction n as [| n IH]; intros a cs w P Hne Han Hw HP Hcs Hnd.
  - simpl. unfold_monad.
    rewrite skipn_all2 by lia. rewrite firstn_all2 by lia. simpl.
    rewrite app_nil_r, <- Hw, world_eta. reflexivity.
  - simpl. unfold bind.
    destruct (nth_error cs a) as [c |] eqn:Ec;
      [| apply nth_error_None in Ec; lia].
    rewrite (skipn_nth_error _ _ _ Ec) in Hcs, Hnd |- *.
    inversion Hcs as [| ? ? [Hc HcP] Hcs']; subst.
    inversion Hnd as [| ? ? Hnotin Hnd']; subst.
    rewrite (recenter_body_run a cs w c Ec)
      by (try assumption; rewrite Hw, length_map; assumption).
    rewrite Hw. unfold cluster_argmax at 1 2.
    rewrite ne_mask_mark by assumption.
    fold (cluster_argmax probs L c). fold am.
    rewrite relabel_mark by assumption.
    rewrite (IH (S a) (set_nth cs a (am c)) _ (c :: P)); try assumption.
    + rewrite skipn_set_nth. rewrite firstn_set_nth by lia.
      simpl. rewrite <- !app_assoc. reflexivity.
    + rewrite set_nth_length. lia.
    + reflexivity.
    + constructor; assumption.
    + rewrite skipn_set_nth. rewrite Forall_forall in Hcs' |- *.
      intros x Hx. destruct (Hcs' x Hx) as [Hfx HxP]. split; [assumption |].
      intros [<- | HxP']; contradiction.
    + rewrite skipn_set_nth. assumption.
Qed.

End RecenterLoop.

(** ** The flags *)

Lemma cluster_mass_ok (labels : list nat) (c : nat) (normpks : R) :
  length probs = length labels ->
  cluster_mass probs labels c normpks =
  Ok (exp (logsumexp (compress probs (eq_mask labels c)) - normpks)).
Proof.
  intros H. unfold cluster_mass, mask_select, eq_mask.
  rewrite length_map, H, Nat.eqb_refl. reflexivity.
Qed.

Lemma flag_loop_run (normpks : R) (w : world) (n : nat) :
  length probs = length (w_labels w) ->
  forall (a : nat) (s : list bool * option nat),
    a + n <= length (w_centers w) ->
    length (fst s) = length (w_centers w) ->
    exists tm k,
      for_each (seq a n) (flag_body probs thrpcl normpks) s w = (Ok (tm, k), w) /\
      length tm = length (w_centers w) /\
      (forall i, i < a -> nth_error tm i = nth_error (fst s) i) /\
      (forall i c m, a <= i < a + n -> nth_error (w_centers w) i = Some c ->
         cluster_mass probs (w_labels w) c normpks = Ok m ->
         nth_error tm i = Some (Rgtb m thrpcl)).
Proof.
  intros Hlen. induction n as [| n IH]; intros a s Han Hs.
  - exists (fst s), (snd s). simpl. unfold_monad.
    destruct s; simpl. repeat split; try assumption; try reflexivity.
    intros; lia.
  - simpl. unfold bind at 1. unfold flag_body at 1. unfold_monad.
    destruct (getitem_lt (w_centers w) a ltac:(lia)) as [c [Hc ->]].
    rewrite cluster_mass_ok by assumption.
    rewrite setitem_lt by lia.
    set (m := exp _). set (s1 := (set_nth (fst s) a (Rgtb m thrpcl), Some a)).
    destruct (IH (S a) s1 ltac:(lia)) as [tm [k [Hrun [Hl [Hlow Hhigh]]]]].
    { subst s1. simpl. rewrite set_nth_length. assumption. }
    exists tm, k. split; [assumption |]. split; [assumption |]. split.
    + intros i Hi. rewrite Hlow by lia. subst s1. simpl.
      apply set_nth_other. lia.
    + intros i c' m' Hi Hc' Hm'.
      destruct (Nat.eq_dec i a) as [-> | Hne].
      * rewrite Hlow by lia. subst s1. simpl.
        rewrite set_nth_same by lia.
        rewrite Hc in Hc'. inversion Hc'; subst c'.
        rewrite cluster_mass_ok in Hm' by assumption.
        inversion Hm'; subst m'. reflexivity.
      * apply (Hhigh i c' m'); [lia | assumption | assumption].
Qed.

Lemma count_true_pos (mask : list bool) (i : nat) :
  nth_error mask i = Some true -> 0 < count_true mask.
Proof.
  revert i. induction mask as [| b mask IH]; intros [| i] H; simpl in H;
    try discriminate.
  - inversion H; subst. unfold count_true. simpl. lia.
  - unfold count_true in *. simpl. destruct b; simpl; [lia |].
    eapply IH; eassumption.
Qed.

Lemma mark_nil (f : nat -> nat) (l : list nat) : map (mark [] f) l = l.
Proof.
  rewrite <- (map_id l) at 2. apply map_ext. intros x. reflexivity.
Qed.

(** What [quick_shift_refinement] returns once a flag is set, on root
    labels: the centers are the arg-max of each cluster, the labels follow. *)
Lemma refinement_recenters (metric_params : option (dict (list R)))
    (cell : option (list R)) (w : world) (c0 j0 : nat) (m0 : R) :
  refinement_cell X metric_params = Ok cell ->
  length probs = length (w_labels w) ->
  root_labels (w_labels w) ->
  In c0 (w_centers w) ->
  nth_error (w_labels w) j0 = Some c0 ->
  cluster_mass probs (w_labels w) c0 (logsumexp probs) = Ok m0 ->
  (thrpcl < m0)%R ->
  let L := w_labels w in
  let am := cluster_argmax probs L in
  quick_shift_refinement metric X probs thrpcl metric_params w =
  (Ok (map am (fixed_points L), map (mark (rev (fixed_points L)) am) L),
   World (w_centers w) (map (mark (rev (fixed_points L)) am) L) (w_stdout w)).
Proof.
  intros Hcell Hlen Hroots Hc0 Hj0 Hm0 Habove L am.
  unfold quick_shift_refinement, refinement_body. unfold_monad. rewrite Hcell.
  pose proof (flag_then_merge cell (logsumexp probs) w) as Hfm.
  destruct (flag_loop_run (logsumexp probs) w (length (w_centers w)) Hlen 0
              (repeat false (length (w_centers w)), None) ltac:(lia))
    as [tm [k [Hrun [Hl [_ Hflags]]]]].
  { simpl. apply repeat_length. }
  cbv zeta in Hfm. unfold range in Hfm |- *. rewrite Hrun in Hfm |- *.
  destruct Hfm as [_ [_ Hmerge]]. rewrite Hmerge.
  apply In_nth_error in Hc0. destruct Hc0 as [i0 Hi0].
  assert (Hflag : nth_error tm i0 = Some true).
  { rewrite (Hflags i0 c0 m0); try assumption.
    - unfold Rgtb. rewrite Rltb_true by assumption. reflexivity.
    - split; [lia |]. simpl. apply nth_error_Some. congruence. }
  apply count_true_pos in Hflag.
  destruct (Nat.ltb_spec 0 (count_true tm)) as [_ |]; [| lia].
  assert (Hfix0 : In c0 (fixed_points L)).
  { apply fixed_points_in. exact (Hroots j0 c0 Hj0). }
  fold L. change (seq 0 (length L)) with (range (length L)).
  unfold fixed_points in Hfix0 |- *.
  rewrite (np_concatenate_ok _ c0 Hfix0).
  fold (fixed_points L) in *.
  assert (Hne : probs <> []).
  { intros E. rewrite E in Hlen. simpl in Hlen.
    assert (j0 < length L) by (apply nth_error_Some; unfold L; congruence).
    unfold L in *. lia. }
  rewrite (recenter_loop L Hlen Hroots (length (fixed_points L)) 0
             (fixed_points L) w []); try assumption.
  - simpl. rewrite app_nil_r. reflexivity.
  - reflexivity.
  - rewrite mark_nil. reflexivity.
  - constructor.
  - simpl. apply Forall_forall. intros c Hc. split.
    + apply fixed_points_in. assumption.
    + intros [].
  - apply fixed_points_NoDup.
Qed.

(** C5: when the re-centering of lines 293-303 runs (a flag of [to_merge]
    is set) on root labels, the center recorded for each final cluster is a
    member of that cluster whose density no other member exceeds, and every
    final label has its center recorded. *)
Theorem refinement_centers_are_cluster_maxima
    (metric_params : option (dict (list R))) (cell : option (list R)) (w : world)
    (c0 j0 : nat) (m0 : R) :
  refinement_cell X metric_params = Ok cell ->
  length probs = length (w_labels w) ->
  root_labels (w_labels w) ->
  In c0 (w_centers w) ->
  nth_error (w_labels w) j0 = Some c0 ->
  cluster_mass probs (w_labels w) c0 (logsumexp probs) = Ok m0 ->
  (thrpcl < m0)%R ->
  exists cs labels',
    quick_shift_refinement metric X probs thrpcl metric_params w =
    (Ok (cs, labels'), World (w_centers w) labels' (w_stdout w)) /\
    length labels' = length (w_labels w) /\
    (forall c, In c cs ->
       nth_error labels' c = Some c /\
       forall j, nth_error labels' j = Some c -> (nth j probs 0 <= nth c probs 0)%R) /\
    (forall j l, nth_error labels' j = Some l -> In l cs).
Proof.
  intros Hcell Hlen Hroots Hc0 Hj0 Hm0 Habove.
  pose proof (refinement_recenters metric_params cell w c0 j0 m0
                Hcell Hlen Hroots Hc0 Hj0 Hm0 Habove) as Hrun.
  cbv zeta in Hrun.
  set (L := w_labels w) in *. set (am := cluster_argmax probs L) in *.
  set (P := rev (fixed_points L)) in *.
  assert (Hmark : forall l, In l L -> mark P am l = am l).
  { intros l Hl. unfold mark.
    assert (Hin : In l P).
    { unfold P. rewrite <- in_rev. apply fixed_points_in.
      apply In_nth_error in Hl. destruct Hl as [i Hi]. exact (Hroots i l Hi). }
    assert (E : existsb (Nat.eqb l) P = true).
    { apply existsb_exists. exists l. split; [assumption | apply Nat.eqb_refl]. }
    rewrite E. reflexivity. }
  assert (Hnew : forall j x, nth_error (map (mark P am) L) j = Some x ->
                   exists l, nth_error L j = Some l /\ x = am l).
  { intros j x Hx. rewrite nth_error_map in Hx.
    destruct (nth_error L j) as [l |] eqn:El; [| discriminate].
    exists l. split; [reflexivity |]. simpl in Hx. inversion Hx.
    apply Hmark. eapply nth_error_In; eassumption. }
  exists (map am (fixed_points L)), (map (mark P am) L).
  split; [exact Hrun |]. split; [apply length_map |]. split.
  - intros c Hc. apply in_map_iff in Hc. destruct Hc as [f [<- Hf]].
    apply fixed_points_in in Hf.
    pose proof (am_member L Hlen f Hf) as Hmem. fold am in Hmem.
    split.
    + rewrite nth_error_map, Hmem. simpl. f_equal. apply Hmark.
      eapply nth_error_In; eassumption.
    + intros j Hj. destruct (Hnew j _ Hj) as [l [Hl Heq]].
      assert (Hlf : nth_error L l = Some l) by exact (Hroots j l Hl).
      pose proof (am_member L Hlen l Hlf) as Hmem'. fold am in Hmem'.
      rewrite <- Heq in Hmem'. rewrite Hmem in Hmem'. inversion Hmem'; subst l.
      apply (cluster_argmax_spec probs L f f Hlen Hf). assumption.
  - intros j l Hj. destruct (Hnew j l Hj) as [l0 [Hl0 ->]].
    apply in_map. apply fixed_points_in. exact (Hroots j l0 Hl0).
Qed.

(** C2: whatever the flags, the merge loop of lines 280-292 hands both
    caller arrays back as it found them: no center is reassigned and no
    member relabeled. *)
Theorem merge_loop_reassigns_nothing (cell : option (list R)) (normpks : R)
    (w : world) :
  let nk := length (w_centers w) in
  match for_each (range nk) (flag_body probs thrpcl normpks) (repeat false nk, None) w
  with
  | (Ok (to_merge, k), w1) =>
      for_each (range nk) (merge_body metric X cell to_merge k nk) tt w1 = (Ok tt, w)
  | (Raise _, w1) => w1 = w
  end.
Proof.
  intros nk. pose proof (flag_then_merge cell normpks w) as H.
  cbv zeta in H. fold nk in H.
  destruct (for_each (range nk) (flag_body probs thrpcl normpks)
              (repeat false nk, None) w) as [[[tm k] | e] w1].
  - destruct H as [_ [_ H]]. exact H.
  - exact H.
Qed.

Lemma not_cell_refinement_body (cell : option (list R)) :
  not_cell (refinement_body metric X probs thrpcl cell).
Proof.
  unfold refinement_body. nocell.
Qed.

Lemma refinement_cell_raises (metric_params : option (dict (list R))) :
  refinement_cell X metric_params = Raise cell_error <->
  exists params cell,
    metric_params = Some params /\
    dict_get params "cell_length" = Some cell /\
    length cell <> shape1 X.
Proof.
  unfold refinement_cell. split.
  - destruct metric_params as [params |]; [| discriminate].
    destruct (dict_get params "cell_length") as [cell |] eqn:E; [| discriminate].
    destruct (Nat.eqb_spec (length cell) (shape1 X)); simpl; [discriminate |].
    intros _. exists params, cell. repeat split; assumption.
  - intros [params [cell [-> [-> Hne]]]].
    destruct (Nat.eqb_spec (length cell) (shape1 X)); [contradiction | reflexivity].
Qed.

(** The cell error of [quick_shift_refinement]: raised exactly on a cell of
    the wrong length, and then with the caller's arrays untouched. *)
Lemma refinement_cell_error (metric_params : option (dict (list R))) (w : world) :
  let r := quick_shift_refinement metric X probs thrpcl metric_params w in
  (fst r = Raise cell_error <->
   exists params cell,
     metric_params = Some params /\
     dict_get params "cell_length" = Some cell /\
     length cell <> shape1 X) /\
  (fst r = Raise cell_error -> snd r = w).
Proof.
  intros r. subst r. rewrite <- refinement_cell_raises.
  unfold quick_shift_refinement. unfold bind at 1. unfold lift.
  destruct (refinement_cell X metric_params) as [cell | e]; simpl.
  - pose proof (not_cell_refinement_body cell w) as Hn.
    split; [split |]; intros H.
    + exfalso. exact (Hn _ H eq_refl).
    + discriminate.
    + exfalso. exact (Hn _ H eq_refl).
  - split; [| reflexivity].
    split; intros H; inversion H; reflexivity.
Qed.

End RefinementFacts.

(** ** The mass fraction at concrete inputs *)

Lemma Rsum_exp_pos (a : list R) : a <> [] -> (0 < Rsum (map exp a))%R.
Proof.
  intros Hne. destruct a as [| x a]; [contradiction |]. clear Hne. simpl.
  assert (H : (0 <= Rsum (map exp a))%R).
  { induction a as [| y a IH]; simpl; [lra |].
    pose proof (exp_pos y). lra. }
  pose proof (exp_pos x). lra.
Qed.

Lemma exp_logsumexp_ratio (a b : list R) :
  a <> [] -> b <> [] ->
  exp (logsumexp a - logsumexp b) = (Rsum (map exp a) / Rsum (map exp b))%R.
Proof.
  intros Ha Hb. unfold logsumexp, Rminus, Rdiv.
  rewrite exp_plus, exp_Ropp.
  rewrite !exp_ln by (apply Rsum_exp_pos; assumption).
  reflexivity.
Qed.

(** C1: three points of equal density, the first two in the cluster of
    point 0 and the third alone in its own.  With [thrpcl = 1/2] the second
    cluster holds a third of the mass, at or below the threshold, and it is
    returned as it came: nothing is merged. *)
Theorem refinement_keeps_cluster_below_threshold
    (metric : list R -> list R -> option (list R) -> R) :
  let X := Matrix 3 1 [[0%R]; [1%R]; [5%R]] in
  let probs := [0%R; 0%R; 0%R] in
  let w := World [0; 2] [0; 0; 2] [] in
  quick_shift_refinement metric X probs (1 / 2) None w = (Ok ([0; 2], [0; 0; 2]), w) /\
  cluster_mass probs [0; 0; 2] 2 (logsumexp probs) = Ok (1 / 3)%R /\
  (1 / 3 <= 1 / 2)%R.
Proof.
  intros X probs w.
  assert (Hm0 : exp (logsumexp [0%R; 0%R] - logsumexp probs) = (2 / 3)%R).
  { rewrite exp_logsumexp_ratio by discriminate.
    unfold probs. simpl. rewrite exp_0. lra. }
  assert (Hm2 : exp (logsumexp [0%R] - logsumexp probs) = (1 / 3)%R).
  { rewrite exp_logsumexp_ratio by discriminate.
    unfold probs. simpl. rewrite exp_0. lra. }
  split; [| split; [| lra]].
  - rewrite (refinement_recenters metric X probs (1 / 2) None None w 0 0 (2 / 3)).
    + cbv zeta. unfold fixed_points, cluster_argmax. simpl.
      unfold mark, cluster_argmax. simpl.
      rewrite !Rltb_false by lra. reflexivity.
    + reflexivity.
    + reflexivity.
    + intros [| [| [| i]]] l H; simpl in H; inversion H; subst; try reflexivity.
      destruct i; discriminate.
    + left; reflexivity.
    + reflexivity.
    + unfold cluster_mass. simpl. rewrite Hm0. reflexivity.
    + lra.
  - unfold cluster_mass. simpl. rewrite Hm2. reflexivity.
Qed.

Lemma refinement_centers_are_cluster_maxima_witness :
  exists cs labels',
    quick_shift_refinement (fun _ _ _ => 0%R) (Matrix 2 1 [[0%R]; [1%R]])
      [0%R; 1%R] 0 None (World [0] [0; 0] []) =
    (Ok (cs, labels'), World [0] labels' []) /\
    length labels' = 2 /\
    (forall c, In c cs ->
       nth_error labels' c = Some c /\
       forall j, nth_error labels' j = Some c ->
                 (nth j [0; 1] 0 <= nth c [0; 1] 0)%R) /\
    (forall j l, nth_error labels' j = Some l -> In l cs).
Proof.
  apply (refinement_centers_are_cluster_maxima (fun _ _ _ => 0%R)
           (Matrix 2 1 [[0%R]; [1%R]]) [0%R; 1%R] 0%R None None
           (World [0] [0; 0] []) 0 0
           (exp (logsumexp [0%R; 1%R] - logsumexp [0%R; 1%R]))).
  - reflexivity.
  - reflexivity.
  - intros [| [| i]] l H; simpl in H; inversion H; subst; try reflexivity.
    destruct i; discriminate.
  - left; reflexivity.
  - reflexivity.
  - reflexivity.
  - apply exp_pos.
Defined.

(** ** Matrices *)

Lemma nth_set_nth {A : Type} (l : list A) (i a : nat) (v d : A) :
  i < length l ->
  nth a (set_nth l i v) d = if a =? i then v else nth a l d.
Proof.
  revert i a. induction l as [| x l IH]; intros [| i] [| a] H; simpl in *;
    try lia; try reflexivity.
  apply IH. lia.
Qed.

Lemma nth_map_range {A : Type} (g : nat -> A) (n i : nat) (d : A) :
  i < n -> nth i (map g (range n)) d = g i.
Proof.
  intros H. unfold range.
  rewrite (nth_indep _ d (g 0)) by (rewrite length_map, length_seq; assumption).
  rewrite map_nth. rewrite seq_nth by assumption. reflexivity.
Qed.

Lemma build_rows_nth (n m : nat) (f : nat -> nat -> R) (i : nat) :
  i < n -> nth i (rows (build n m f)) [] = map (fun j => f i j) (range m).
Proof.
  intros H. unfold build. simpl.
  apply (nth_map_range (fun i => map (fun j => f i j) (range m))). assumption.
Qed.

Lemma mget_build (n m : nat) (f : nat -> nat -> R) (i j : nat) :
  i < n -> j < m -> mget (build n m f) i j = f i j.
Proof.
  intros Hi Hj. unfold mget. rewrite build_rows_nth by assumption.
  apply (nth_map_range (fun j => f i j)). assumption.
Qed.

Lemma wf_build (n m : nat) (f : nat -> nat -> R) : wf_matrix (build n m f).
Proof.
  unfold wf_matrix, build. simpl. split.
  - rewrite length_map. unfold range. apply length_seq.
  - apply Forall_forall. intros row Hrow. apply in_map_iff in Hrow.
    destruct Hrow as [i [<- _]]. rewrite length_map. unfold range. apply length_seq.
Qed.

Lemma build_ext (n m : nat) (f g : nat -> nat -> R) :
  (forall i j, i < n -> j < m -> f i j = g i j) -> build n m f = build n m g.
Proof.
  intros H. unfold build. f_equal.
  apply map_ext_in. intros i Hi. apply in_seq in Hi.
  apply map_ext_in. intros j Hj. apply in_seq in Hj.
  apply H; lia.
Qed.

Lemma wf_row_length (A : matrix) (i : nat) :
  wf_matrix A -> i < shape0 A -> length (nth i (rows A) []) = shape1 A.
Proof.
  intros [Hr Hc] Hi. rewrite Forall_forall in Hc. apply Hc.
  apply nth_In. lia.
Qed.

Lemma mset_ok (A : matrix) (i j : nat) (v : R) :
  wf_matrix A -> i < shape0 A -> j < shape1 A ->
  exists A',
    mset A i j v = Ok A' /\ wf_matrix A' /\
    shape0 A' = shape0 A /\ shape1 A' = shape1 A /\
    forall a b, mget A' a b = if (a =? i) && (b =? j) then v else mget A a b.
Proof.
  intros Hwf Hi Hj. pose proof Hwf as [Hr Hc]. unfold mset.
  destruct (Nat.ltb_spec i (shape0 A)); [| lia].
  destruct (Nat.ltb_spec j (shape1 A)); [| lia]. simpl.
  eexists. split; [reflexivity |].
  pose proof (wf_row_length A i Hwf Hi) as Hrow.
  split; [| split; [reflexivity | split; [reflexivity |]]].
  - unfold wf_matrix. simpl. split; [rewrite set_nth_length; assumption |].
    apply Forall_forall. intros row Hin.
    apply In_nth_error in Hin. destruct Hin as [a Ha].
    destruct (Nat.eq_dec i a) as [<- | Hne].
    + rewrite set_nth_same in Ha by lia. inversion Ha; subst.
      rewrite set_nth_length. assumption.
    + rewrite set_nth_other in Ha by assumption.
      rewrite Forall_forall in Hc. apply Hc. eapply nth_error_In; eassumption.
  - intros a b. unfold mget. simpl.
    rewrite nth_set_nth by lia.
    destruct (Nat.eqb_spec a i) as [-> | Hne]; simpl; [| reflexivity].
    rewrite nth_set_nth by lia. reflexivity.
Qed.

Lemma get_col_zip (rws : list (list R)) (j : nat) (col : list R) :
  length col = length rws -> Forall (fun row => j < length row) rws ->
  map (fun row => nth j row 0%R) (zip_with (fun row v => set_nth row j v) rws col)
  = col.
Proof.
  revert col. induction rws as [| row rws IH]; intros [| v col] Hlen Hrows;
    simpl in *; try lia; try reflexivity.
  inversion Hrows as [| ? ? Hrow Hrows']; subst.
  rewrite nth_set_nth by assumption. rewrite Nat.eqb_refl.
  f_equal. apply IH; [lia | assumption].
Qed.

Lemma zip_set_nth_wf (rws : list (list R)) (j m : nat) (col : list R) :
  length col = length rws -> Forall (fun row => length row = m) rws ->
  length (zip_with (fun row v => set_nth row j v) rws col) = length rws /\
  Forall (fun row => length row = m)
         (zip_with (fun row v => set_nth row j v) rws col).
Proof.
  revert col. induction rws as [| row rws IH]; intros [| v col] Hlen Hrows;
    simpl in *; try lia.
  - split; [reflexivity | constructor].
  - inversion Hrows as [| ? ? Hrow Hrows']; subst.
    destruct (IH col ltac:(lia) Hrows') as [Hl Hf].
    split; [lia |]. constructor; [apply set_nth_length | assumption].
Qed.

Lemma set_col_ok (A : matrix) (j : nat) (col : list R) :
  wf_matrix A -> j < shape1 A -> length col = shape0 A ->
  exists A',
    set_col A j col = Ok A' /\ wf_matrix A' /\
    shape0 A' = shape0 A /\ shape1 A' = shape1 A /\ get_col A' j = col.
Proof.
  intros [Hr Hc] Hj Hlen. unfold set_col.
  rewrite Hlen, Nat.eqb_refl.
  eexists. split; [reflexivity |].
  destruct (zip_set_nth_wf (rows A) j (shape1 A) col ltac:(lia) Hc) as [Hl Hf].
  split; [| split; [reflexivity | split; [reflexivity |]]].
  - unfold wf_matrix. simpl. split; [lia | assumption].
  - unfold get_col. simpl. apply get_col_zip; [lia |].
    eapply Forall_impl; [| exact Hc]. simpl. intros row Hrow. lia.
Qed.

(** ** The periodic cluster covariance *)

Lemma compress_length {A : Type} (a : list A) (mask : list bool) :
  length a = length mask -> length (compress a mask) = count_true mask.
Proof.
  revert mask. induction a as [| x a IH]; intros [| b mask] H; simpl in *;
    try lia; try reflexivity.
  unfold count_true in *. simpl. destruct b; simpl; rewrite IH; lia.
Qed.

Lemma mask_put_length (a : list R) (mask : list bool) (vals : list R) :
  length (mask_put a mask vals) = length a.
Proof.
  revert mask vals. induction a as [| x a IH]; intros [| b mask] vals; simpl;
    try reflexivity.
  destruct b; [destruct vals |]; simpl; rewrite IH; reflexivity.
Qed.

Lemma lcov_weights_ok (N Ntot : nat) (clroots : list nat) (idcl : nat)
    (probs : list R) :
  length clroots = N -> length probs = N ->
  exists sel ww,
    mask_select probs (eq_mask clroots idcl) = Ok sel /\
    mask_assign (repeat 0%R N) (eq_mask clroots idcl)
      (map (fun p => exp (p - logsumexp probs)) sel) = Ok ww /\
    map (fun w => w * INR Ntot)%R ww = cluster_weights Ntot clroots idcl probs /\
    length ww = N.
Proof.
  intros Hc Hp.
  assert (Hmask : length (eq_mask clroots idcl) = N)
    by (unfold eq_mask; rewrite length_map; assumption).
  exists (compress probs (eq_mask clroots idcl)). eexists.
  split; [unfold mask_select; rewrite Hp, Hmask, Nat.eqb_refl; reflexivity |].
  split; [| split].
  - unfold mask_assign. rewrite repeat_length, Hmask, Nat.eqb_refl. simpl.
    rewrite length_map, compress_length by lia. rewrite Nat.eqb_refl. simpl.
    reflexivity.
  - unfold cluster_weights. rewrite Hc. reflexivity.
  - rewrite mask_put_length. apply repeat_length.
Qed.

Lemma lcov_loop (x : matrix) (cell ww : list R) (n : nat) :
  length (rows x) = shape0 x -> length ww = shape0 x ->
  shape1 x <= length cell ->
  forall (a : nat) (cov xx : matrix),
    a + n = shape1 x ->
    wf_matrix cov -> shape0 cov = shape1 x -> shape1 cov = shape1 x ->
    wf_matrix xx -> shape0 xx = shape0 x -> shape1 xx = shape1 x ->
    exists cov' xx',
      ofor_each (seq a n) (lcov_clusterp_body x cell ww (Rsum ww)) (cov, xx)
      = Ok (cov', xx') /\
      shape0 cov' = shape1 x /\ shape1 cov' = shape1 x /\
      forall i j,
        mget cov' i j =
        if (i =? j) && (a <=? i) && (i <? a + n)
        then circular_variance ww (wrap_column (nth i cell 0%R) (get_col x i))
        else mget cov i j.
Proof.
  intros Hx Hww Hcell. induction n as [| n IH];
    intros a cov xx Han Hcov Hc0 Hc1 Hxx Hx0 Hx1.
  - exists cov, xx. simpl. repeat split; try assumption.
    intros i j. destruct (Nat.ltb_spec i (a + 0)); destruct (Nat.leb_spec a i);
      try lia; rewrite ?andb_false_r; reflexivity.
  - cbn [seq ofor_each]. unfold lcov_clusterp_body at 1.
    destruct (nth_error cell a) as [ci |] eqn:Eci;
      [| apply nth_error_None in Eci; lia].
    rewrite (getitem_Some _ _ _ Eci). cbn [obind].
    set (col := map (fun v => (v - np_round (v / ci) * ci)%R) (get_col x a)).
    assert (Hcol : length col = shape0 x).
    { unfold col, get_col. rewrite !length_map. assumption. }
    destruct (set_col_ok xx a col Hxx ltac:(lia) ltac:(lia))
      as [xx1 [-> [Hxx1 [Hx10 [Hx11 Hget]]]]].
    cbn [obind]. rewrite Hget.
    rewrite !vop_ok by (rewrite length_map; lia). cbn [obind].
    match goal with
    | |- context [mset cov a a ?v] =>
        destruct (mset_ok cov a a v Hcov ltac:(lia) ltac:(lia))
          as [cov1 [Hset [Hcov1 [Hc10 [Hc11 Hentries]]]]]
    end.
    rewrite Hset. cbn [obind].
    destruct (IH (S a) cov1 xx1 ltac:(lia) Hcov1 ltac:(lia) ltac:(lia)
                Hxx1 ltac:(lia) ltac:(lia))
      as [cov' [xx' [Hrun [Hs0 [Hs1 Hfinal]]]]].
    exists cov', xx'. split; [exact Hrun |]. split; [assumption |].
    split; [assumption |].
    intros i j. rewrite Hfinal. rewrite Hentries.
    destruct (Nat.eqb_spec i j) as [<- | Hij]; cbn [andb].
    + destruct (Nat.eqb_spec i a) as [-> | Hia]; cbn [andb].
      * destruct (Nat.leb_spec (S a) a); [lia |].
        destruct (Nat.leb_spec a a); [| lia].
        destruct (Nat.ltb_spec a (a + S n)); [| lia]. cbn [andb].
        unfold circular_variance, wrap_column.
        rewrite (nth_error_nth _ _ _ Eci). reflexivity.
      * destruct (Nat.leb_spec (S a) i); destruct (Nat.leb_spec a i);
          destruct (Nat.ltb_spec i (S a + n)); destruct (Nat.ltb_spec i (a + S n));
          cbn [andb]; try lia; reflexivity.
    + destruct (Nat.eqb_spec i a); destruct (Nat.eqb_spec j a); cbn [andb];
        try lia; reflexivity.
Qed.

(** On arrays of matching shapes [_get_lcov_clusterp] returns, and what it
    returns is known entry by entry. *)
Lemma lcov_clusterp_run (N Ntot : nat) (x : matrix) (clroots : list nat)
    (idcl : nat) (probs cell : list R) :
  length (rows x) = shape0 x -> N = shape0 x ->
  length clroots = N -> length probs = N ->
  shape1 x <= length cell ->
  exists cov,
    _get_lcov_clusterp N Ntot x clroots idcl probs cell = Ok cov /\
    shape0 cov = shape1 x /\ shape1 cov = shape1 x /\
    forall i j, i < shape1 x -> j < shape1 x ->
      mget cov i j =
      if i =? j
      then circular_variance (cluster_weights Ntot clroots idcl probs)
             (wrap_column (nth i cell 0%R) (get_col x i))
      else 0%R.
Proof.
  intros Hx HN Hc Hp Hcell. unfold _get_lcov_clusterp.
  destruct (lcov_weights_ok N Ntot clroots idcl probs Hc Hp)
    as [sel [ww [-> [Hassign [Hww Hlen]]]]].
  cbn [obind]. rewrite Hassign. cbn [obind]. cbv zeta. rewrite Hww.
  destruct (lcov_loop x cell (cluster_weights Ntot clroots idcl probs)
              (shape1 x) Hx
              ltac:(rewrite <- Hww, length_map; lia) Hcell 0
              (zeros (shape1 x) (shape1 x)) (zeros (shape0 x) (shape1 x))
              ltac:(lia) (wf_build _ _ _) eq_refl eq_refl
              (wf_build _ _ _) eq_refl eq_refl)
    as [cov' [xx' [Hrun [Hs0 [Hs1 Hfinal]]]]].
  unfold range. rewrite Hrun. cbn [obind fst].
  exists cov'. split; [reflexivity |]. split; [assumption |]. split; [assumption |].
  intros i j Hi Hj. rewrite Hfinal.
  destruct (Nat.eqb_spec i j) as [<- | Hij]; cbn [andb].
  - destruct (Nat.leb_spec 0 i); [| lia].
    destruct (Nat.ltb_spec i (0 + shape1 x)); [| lia]. reflexivity.
  - unfold zeros. apply mget_build; assumption.
Qed.

(** C8: the periodic cluster covariance is a [d] by [d] diagonal matrix:
    entry [(i, i)] is the circular variance of coordinate [i] under the
    cluster weights, every entry off the diagonal is zero. *)
Theorem lcov_clusterp_is_diagonal (N Ntot : nat) (x : matrix) (clroots : list nat)
    (idcl : nat) (probs cell : list R) :
  length (rows x) = shape0 x -> N = shape0 x ->
  length clroots = N -> length probs = N ->
  shape1 x <= length cell ->
  exists cov,
    _get_lcov_clusterp N Ntot x clroots idcl probs cell = Ok cov /\
    shape0 cov = shape1 x /\ shape1 cov = shape1 x /\
    forall i j, i < shape1 x -> j < shape1 x ->
      mget cov i j =
      if i =? j
      then circular_variance (cluster_weights Ntot clroots idcl probs)
             (wrap_column (nth i cell 0%R) (get_col x i))
      else 0%R.
Proof.
  intros Hx HN Hc Hp Hcell.
  exact (lcov_clusterp_run N Ntot x clroots idcl probs cell Hx HN Hc Hp Hcell).
Qed.

Lemma lcov_clusterp_is_diagonal_witness :
  exists cov,
    _get_lcov_clusterp 2 2 (Matrix 2 2 [[0%R; 1%R]; [1%R; 3%R]]) [0; 0] 0
      [0%R; 0%R] [1%R; 2%R] = Ok cov /\
    shape0 cov = 2 /\ shape1 cov = 2 /\
    forall i j, i < 2 -> j < 2 ->
      mget cov i j =
      if i =? j
      then circular_variance (cluster_weights 2 [0; 0] 0 [0%R; 0%R])
             (wrap_column (nth i [1%R; 2%R] 0%R)
                (get_col (Matrix 2 2 [[0%R; 1%R]; [1%R; 3%R]]) i))
      else 0%R.
Proof.
  apply (lcov_clusterp_is_diagonal 2 2 (Matrix 2 2 [[0%R; 1%R]; [1%R; 3%R]])
           [0; 0] 0 [0%R; 0%R] [1%R; 2%R]).
  - reflexivity.
  - reflexivity.
  - reflexivity.
  - reflexivity.
  - simpl. lia.
Defined.

(** ** The weights of the non-periodic cluster covariance *)

Lemma compress_members (p : list R) (L : list nat) (c : nat) :
  length p = length L -> In c L -> compress p (eq_mask L c) <> [].
Proof.
  intros Hlen Hc E.
  assert (Hcount : length (compress p (eq_mask L c)) = count_true (eq_mask L c)).
  { apply compress_length. unfold eq_mask. rewrite length_map. exact Hlen. }
  rewrite E in Hcount. simpl in Hcount.
  apply In_nth_error in Hc. destruct Hc as [j Hj].
  assert (Hpos : 0 < count_true (eq_mask L c)).
  { apply (count_true_pos _ j). unfold eq_mask. rewrite nth_error_map, Hj. simpl.
    rewrite Nat.eqb_refl. reflexivity. }
  lia.
Qed.

Lemma mask_put_sum (mask : list bool) :
  forall (vals : list R),
    length vals = count_true mask ->
    Rsum (mask_put (repeat 0%R (length mask)) mask vals) = Rsum vals.
Proof.
  unfold count_true.
  induction mask as [| b mask IH]; intros vals Hlen; simpl in *.
  - destruct vals; [reflexivity | discriminate].
  - destruct b; simpl in Hlen.
    + destruct vals as [| v vals]; [discriminate |]. simpl in Hlen |- *.
      rewrite IH by lia. reflexivity.
    + simpl. rewrite IH by assumption. lra.
Qed.

Lemma mask_put_outside (mask : list bool) :
  forall (vals : list R) (j : nat),
    nth_error mask j = Some false ->
    nth j (mask_put (repeat 0%R (length mask)) mask vals) 0%R = 0%R.
Proof.
  induction mask as [| b mask IH]; intros vals j Hj; simpl in *.
  - destruct j; discriminate.
  - destruct j as [| j]; simpl in Hj.
    + inversion Hj; subst. reflexivity.
    + destruct b; [destruct vals |]; simpl; apply IH; assumption.
Qed.

Lemma mask_put_nonneg (mask : list bool) :
  forall (vals : list R),
    Forall (fun v => 0 <= v)%R vals ->
    Forall (fun v => 0 <= v)%R (mask_put (repeat 0%R (length mask)) mask vals).
Proof.
  induction mask as [| b mask IH]; intros vals Hv; simpl.
  - constructor.
  - destruct b.
    + destruct vals as [| v vals].
      * constructor; [lra | apply IH; constructor].
      * inversion Hv; subst. constructor; [assumption | apply IH; assumption].
    + constructor; [lra | apply IH; assumption].
Qed.

Lemma Rsum_exp_shift (sel : list R) (n : R) :
  Rsum (map (fun p => exp (p - n)) sel) = (Rsum (map exp sel) / exp n)%R.
Proof.
  induction sel as [| x sel IH]; simpl.
  - unfold Rdiv. ring.
  - rewrite IH. unfold Rminus at 1. rewrite exp_plus, exp_Ropp.
    unfold Rdiv. ring.
Qed.

Lemma member_weights_normalised (clroots : list nat) (idcl : nat) (p : list R) :
  length p = length clroots ->
  length (member_weights clroots idcl p) = length clroots /\
  Forall (fun v => 0 <= v)%R (member_weights clroots idcl p) /\
  (forall j l, nth_error clroots j = Some l -> l <> idcl ->
     nth j (member_weights clroots idcl p) 0%R = 0%R) /\
  (In idcl clroots -> Rsum (member_weights clroots idcl p) = 1%R).
Proof.
  intros Hp. unfold member_weights.
  assert (Hmask : length (eq_mask clroots idcl) = length clroots)
    by (unfold eq_mask; apply length_map).
  split; [rewrite mask_put_length; apply repeat_length |].
  rewrite <- Hmask.
  split; [| split].
  - apply mask_put_nonneg. apply Forall_forall. intros v Hv.
    apply in_map_iff in Hv. destruct Hv as [q [<- _]].
    left. apply exp_pos.
  - intros j l Hj Hne. apply mask_put_outside.
    unfold eq_mask. rewrite nth_error_map, Hj. simpl.
    destruct (Nat.eqb_spec l idcl); [contradiction | reflexivity].
  - intros Hin.
    rewrite mask_put_sum by (rewrite length_map; apply compress_length; lia).
    rewrite Rsum_exp_shift. unfold logsumexp.
    assert (Hpos : (0 < Rsum (map exp (compress p (eq_mask clroots idcl))))%R).
    { apply Rsum_exp_pos. apply compress_members; [exact Hp | exact Hin]. }
    rewrite exp_ln by exact Hpos. field. lra.
Qed.

(** ** [generate_probability_model] *)

Section ModelFacts.

Variable _covariance : matrix -> list R -> option (list R) -> matrix.
Variable oas : matrix -> R -> nat -> matrix.
Variable X : matrix.
Variable descriptors : matrix.
Variable descriptor_labels : list nat.
Variable descriptor_weights : list R.
Variable probs : list R.
Variable cell : option (list R).

Local Abbreviation model := (generate_probability_model _covariance oas X descriptors
                           descriptor_labels descriptor_weights probs cell).

Lemma onot_cell_lcov_cluster (N : nat) (x : matrix) (clroots : list nat) (idcl : nat)
    (p : list R) (cl : option (list R)) :
  onot_cell (_get_lcov_cluster _covariance N x clroots idcl p cl).
Proof. unfold _get_lcov_cluster. nocell. Qed.

Lemma onot_cell_lcov_clusterp_body (x : matrix) (cl ww : list R) (nlk : R) (i : nat)
    (s : matrix * matrix) :
  onot_cell (lcov_clusterp_body x cl ww nlk i s).
Proof. unfold lcov_clusterp_body. destruct s. nocell. Qed.

#[local] Hint Resolve onot_cell_lcov_cluster onot_cell_lcov_clusterp_body : nocell.

Lemma onot_cell_lcov_clusterp (N Ntot : nat) (x : matrix) (clroots : list nat)
    (idcl : nat) (p cl : list R) :
  onot_cell (_get_lcov_clusterp N Ntot x clroots idcl p cl).
Proof.
  unfold _get_lcov_clusterp. nocell.
Qed.

Lemma onot_cell_set_cov (cc : list matrix) (d k : nat) (cov : matrix) :
  onot_cell (set_cov cc d k cov).
Proof. unfold set_cov, setitem. prim_not_cell. Qed.

#[local] Hint Resolve onot_cell_lcov_clusterp onot_cell_set_cov : nocell.

Lemma not_cell_update_cluster_cov (X' : matrix) (k : nat) (sample_labels : list nat)
    (p : list R) (idxroot center_idx : list nat) :
  not_cell (_update_cluster_cov _covariance oas descriptors descriptor_weights cell
              X' k sample_labels p idxroot center_idx).
Proof.
  unfold _update_cluster_cov. nocell.
Qed.

#[local] Hint Resolve not_cell_update_cluster_cov : nocell.

Lemma not_cell_model_body (center_idx : list nat) (normpks : R) (d k : nat)
    (s : list R * list matrix) :
  not_cell (model_body _covariance oas X descriptors descriptor_labels
              descriptor_weights probs cell center_idx normpks d k s).
Proof.
  unfold model_body. destruct s. nocell.
Qed.

#[local] Hint Resolve not_cell_model_body : nocell.

Lemma not_cell_probability_model_body :
  not_cell (probability_model_body _covariance oas X descriptors descriptor_labels
              descriptor_weights probs cell).
Proof.
  unfold probability_model_body. nocell.
Qed.

Lemma model_cell_check_raises :
  model_cell_check X cell = Raise cell_error <->
  exists c, cell = Some c /\ shape1 X <> length c.
Proof.
  unfold model_cell_check. split.
  - destruct cell as [c |]; [| discriminate].
    destruct (Nat.eqb_spec (shape1 X) (length c)); simpl; [discriminate |].
    intros _. exists c. split; [reflexivity | assumption].
  - intros [c [-> Hne]].
    destruct (Nat.eqb_spec (shape1 X) (length c)); [contradiction | reflexivity].
Qed.

(** The cell error of [generate_probability_model]: raised exactly on a
    cell of the wrong length, and then with the caller's arrays untouched. *)
Lemma model_cell_error (w : world) :
  let r := model w in
  (fst r = Raise cell_error <-> exists c, cell = Some c /\ shape1 X <> length c) /\
  (fst r = Raise cell_error -> snd r = w).
Proof.
  intros r. subst r. rewrite <- model_cell_check_raises.
  unfold generate_probability_model. unfold bind at 1. unfold lift.
  destruct (model_cell_check X cell) as [u | e]; simpl.
  - pose proof (not_cell_probability_model_body w) as Hn.
    split; [split |]; intros H.
    + exfalso. exact (Hn _ H eq_refl).
    + discriminate.
    + exfalso. exact (Hn _ H eq_refl).
  - split; [| reflexivity].
    split; intros H; inversion H; reflexivity.
Qed.

(** C9: whenever [generate_probability_model] returns, the means it
    returns are the zero matrix of [nclusters] rows and [dimension]
    columns. *)
Theorem model_means_are_zero (w w' : world) (cluster_weight : list R)
    (cluster_mean : matrix) (cluster_cov : list matrix) (labels : list nat) :
  model w = (Ok (cluster_weight, cluster_mean, cluster_cov, labels), w') ->
  cluster_mean = zeros (length (w_centers w)) (shape1 X).
Proof.
  unfold generate_probability_model. unfold bind at 1. unfold lift.
  destruct (model_cell_check X cell) as [u | e]; [| discriminate].
  unfold probability_model_body. unfold_monad.
  match goal with
  | |- context [for_each ?l ?b ?s w] => destruct (for_each l b s w) as [[[cw cc] | e] w1]
  end; [| discriminate].
  match goal with
  | |- context [for_each ?l ?b tt w1] => destruct (for_each l b tt w1) as [[u' | e] w2]
  end; [| discriminate].
  intros H. inversion H. reflexivity.
Qed.

(** ** The single-point fallback *)

Lemma lcov_cluster_run (N : nat) (x : matrix) (clroots : list nat) (idcl : nat)
    (p : list R) (cl : option (list R)) :
  length clroots = N -> length p = N ->
  _get_lcov_cluster _covariance N x clroots idcl p cl
  = Ok (_covariance x (member_weights clroots idcl p) cl).
Proof.
  intros Hc Hp. unfold _get_lcov_cluster, member_weights.
  assert (Hmask : length (eq_mask clroots idcl) = N)
    by (unfold eq_mask; rewrite length_map; assumption).
  unfold mask_select. rewrite Hp, Hmask, Nat.eqb_refl. cbn [obind].
  unfold mask_assign. rewrite repeat_length, Hmask, Nat.eqb_refl. cbn [negb].
  rewrite length_map, compress_length by lia. rewrite Nat.eqb_refl.
  cbn [negb obind]. rewrite Hc. reflexivity.
Qed.

(** C6 (as amended): for a cluster with exactly one grid point,
    [_update_cluster_cov] returns without an error, prints the warning, and
    the covariance it returns is computed from the descriptors under their
    nearest-grid labels and their weights, not from the grid.  With a cell
    it is the square matrix of the descriptor dimension that carries on its
    diagonal the circular variance of each descriptor coordinate under the
    descriptor weights of the cluster and is zero elsewhere, hence
    symmetric.  Without a cell it is the shrinkage [oas] of the covariance
    estimate [_covariance] of the descriptors under weights that are zero
    outside the cluster, none negative, and sum to one when a descriptor
    carries the label of the cluster.  Nothing is said on the sign of the
    entries. *)
Theorem single_point_cluster_falls_back (k : nat) (sample_labels : list nat)
    (idxroot center_idx : list nat) (c : nat) (w : world) :
  nth_error center_idx k = Some c ->
  count_true (eq_mask idxroot c) = 1 ->
  length (rows X) = shape0 X -> length idxroot = shape0 X ->
  length probs = shape0 X ->
  length (rows descriptors) = shape0 descriptors ->
  length sample_labels = shape0 descriptors ->
  length descriptor_weights = shape0 descriptors ->
  (forall cl, cell = Some cl ->
     shape1 X <= length cl /\ shape1 descriptors <= length cl) ->
  let nsamples := shape0 descriptors in
  exists cov,
    _update_cluster_cov _covariance oas descriptors descriptor_weights cell
      X k sample_labels probs idxroot center_idx w =
    (Ok cov,
     World (w_centers w) (w_labels w) (w_stdout w ++ [single_point_warning])) /\
    match cell with
    | Some cl =>
        _get_lcov_clusterp nsamples nsamples descriptors sample_labels c
          descriptor_weights cl = Ok cov /\
        shape0 cov = shape1 descriptors /\ shape1 cov = shape1 descriptors /\
        (forall i j, i < shape1 descriptors -> j < shape1 descriptors ->
           mget cov i j =
           (if i =? j
            then circular_variance
                   (cluster_weights nsamples sample_labels c descriptor_weights)
                   (wrap_column (nth i cl 0%R) (get_col descriptors i))
            else 0%R) /\
           mget cov i j = mget cov j i)
    | None =>
        _get_lcov_cluster _covariance nsamples descriptors sample_labels c
          descriptor_weights None =
        Ok (_covariance descriptors
              (member_weights sample_labels c descriptor_weights) None) /\
        cov = oas (_covariance descriptors
                     (member_weights sample_labels c descriptor_weights) None)
                (logsumexp (compress probs (eq_mask idxroot c)) * INR nsamples)%R
                (shape1 X) /\
        length (member_weights sample_labels c descriptor_weights) = nsamples /\
        Forall (fun v => 0 <= v)%R
          (member_weights sample_labels c descriptor_weights) /\
        (forall j l, nth_error sample_labels j = Some l -> l <> c ->
           nth j (member_weights sample_labels c descriptor_weights) 0%R = 0%R) /\
        (In c sample_labels ->
         Rsum (member_weights sample_labels c descriptor_weights) = 1%R)
    end.
Proof.
  intros Hc Hone HX Hidx Hprobs Hd Hsl Hdw Hcell nsamples.
  unfold _update_cluster_cov. fold nsamples. unfold_monad.
  rewrite (getitem_Some _ _ _ Hc). rewrite Hone. cbn [Nat.eqb].
  destruct cell as [cl |].
  - destruct (Hcell cl eq_refl) as [HclX Hcld].
    destruct (lcov_clusterp_run (shape0 X) nsamples X idxroot c probs cl
                HX eq_refl Hidx Hprobs HclX) as [cov1 [-> _]].
    destruct (lcov_clusterp_run nsamples nsamples descriptors sample_labels c
                descriptor_weights cl Hd eq_refl Hsl Hdw Hcld)
      as [cov2 [Hrun2 [Hs0 [Hs1 Hent]]]].
    rewrite Hrun2. exists cov2.
    split; [reflexivity |]. split; [reflexivity |].
    split; [exact Hs0 |]. split; [exact Hs1 |].
    intros i j Hi Hj. split; [apply Hent; assumption |].
    rewrite (Hent i j Hi Hj), (Hent j i Hj Hi).
    destruct (Nat.eqb_spec i j) as [-> | Hne].
    + rewrite Nat.eqb_refl. reflexivity.
    + destruct (Nat.eqb_spec j i); [congruence | reflexivity].
  - rewrite (lcov_cluster_run (shape0 X) X idxroot c probs None Hidx Hprobs).
    rewrite (lcov_cluster_run nsamples descriptors sample_labels c
               descriptor_weights None Hsl Hdw).
    assert (Hsel : mask_select probs (eq_mask idxroot c)
                   = Ok (compress probs (eq_mask idxroot c))).
    { unfold mask_select, eq_mask. rewrite length_map, Hprobs, Hidx, Nat.eqb_refl.
      reflexivity. }
    rewrite Hsel. eexists. split; [reflexivity |].
    split; [reflexivity |]. split; [reflexivity |].
    destruct (member_weights_normalised sample_labels c descriptor_weights
                ltac:(congruence)) as [Hlen [Hnn [Hout Hsum]]].
    split; [rewrite Hlen; exact Hsl |]. split; [exact Hnn |].
    split; [exact Hout | exact Hsum].
Qed.

End ModelFacts.

Lemma single_point_cluster_falls_back_witness :
  let X := Matrix 2 1 [[0%R]; [1%R]] in
  let descriptors := Matrix 3 1 [[0%R]; [1%R]; [2%R]] in
  exists cov,
    _update_cluster_cov (fun x _ _ => x) (fun c _ _ => c) descriptors
      [0%R; 0%R; 0%R] (Some [4%R]) X 1 [0; 1; 1] [0%R; 0%R] [0; 1] [0; 1]
      (World [0; 1] [0; 1] []) =
    (Ok cov, World [0; 1] [0; 1] [single_point_warning]) /\
    _get_lcov_clusterp 3 3 descriptors [0; 1; 1] 1 [0%R; 0%R; 0%R] [4%R] = Ok cov /\
    shape0 cov = 1 /\ shape1 cov = 1 /\
    (forall i j, i < 1 -> j < 1 ->
       mget cov i j =
       (if i =? j
        then circular_variance (cluster_weights 3 [0; 1; 1] 1 [0%R; 0%R; 0%R])
               (wrap_column (nth i [4%R] 0%R) (get_col descriptors i))
        else 0%R) /\
       mget cov i j = mget cov j i).
Proof.
  intros X descriptors.
  apply (single_point_cluster_falls_back (fun x _ _ => x) (fun c _ _ => c)
           X descriptors [0%R; 0%R; 0%R] [0%R; 0%R] (Some [4%R])
           1 [0; 1; 1] [0; 1] [0; 1] 1 (World [0; 1] [0; 1] [])).
  - reflexivity.
  - reflexivity.
  - reflexivity.
  - reflexivity.
  - reflexivity.
  - reflexivity.
  - reflexivity.
  - reflexivity.
  - intros cl H. inversion H; subst. simpl. lia.
Defined.

(** Two descriptors of the angles [0] and [PI / 2] that carry a sixth of
    the descriptor weight between them: the effective sample size is
    [3 / 6 = 1 / 2], below one, the squared resultant length is [1 / 2],
    and the circular variance is [- 1 / sqrt (3 / 2)]. *)
Lemma circular_variance_below_one_sample :
  (circular_variance
     (cluster_weights 3 [0%nat; 0%nat; 1%nat] 0 [0; 0; ln 10])
     (wrap_column 8 [0; PI / 2; 1]) < 0)%R.
Proof.
  assert (HL : logsumexp [0%R; 0%R; ln 10] = ln 12).
  { unfold logsumexp. simpl. rewrite exp_0, exp_ln by lra. f_equal. lra. }
  assert (He : exp (0 - ln 12) = (1 / 12)%R).
  { unfold Rminus. rewrite Rplus_0_l, exp_Ropp, exp_ln by lra. lra. }
  assert (Hww : cluster_weights 3 [0; 0; 1] 0 [0%R; 0%R; ln 10]
                = [(1 / 4)%R; (1 / 4)%R; 0%R]).
  { unfold cluster_weights. cbn -[logsumexp exp INR ln].
    rewrite HL, He. simpl INR.
    f_equal; [lra |]. f_equal; [lra |]. f_equal. lra. }
  assert (Hang : wrap_column 8 [0%R; (PI / 2)%R; 1%R] = [0%R; (PI / 2)%R; 1%R]).
  { unfold wrap_column, np_round. cbn [map].
    rewrite !round_half_even_small
      by (pose proof PI_RGT_0; pose proof PI_4; lra).
    f_equal; [lra |]. f_equal; [lra |]. f_equal. lra. }
  rewrite Hww, Hang. unfold circular_variance, Rsum.
  cbn [map zip_with fold_right].
  rewrite cos_0, sin_0, cos_PI2, sin_PI2.
  match goal with
  | |- (1 / (sqrt ?r * _ / _) < 0)%R => replace r with (3 / 2)%R by (simpl; field)
  end.
  assert (Hs : (0 < sqrt (3 / 2))%R) by (apply sqrt_lt_R0; lra).
  replace (1 / (sqrt (3 / 2) * (2 - 3 / 2) / (1 - 3 / 2)))%R
    with (- / sqrt (3 / 2))%R by (field; lra).
  pose proof (Rinv_0_lt_compat _ Hs). lra.
Qed.

(** C6, as stated, fails where it promises a valid covariance.  Three grid
    points, the first a cluster of its own; three descriptors with the
    log-weights [0], [0] and [ln 10], the first two, at the angles [0] and
    [PI / 2], labelled with that cluster.  The fallback runs, the warning
    is printed, no error is raised, and the variance returned for the
    cluster is negative. *)
Lemma single_point_covariance_can_be_negative :
  count_true (eq_mask [0; 1; 1] 0) = 1 /\
  exists cluster_weight cov0 cov1 labels',
    generate_probability_model (fun x _ _ => x) (fun c _ _ => c)
      (Matrix 3 1 [[0%R]; [1%R]; [2%R]])
      (Matrix 3 1 [[0%R]; [(PI / 2)%R]; [1%R]])
      [0; 0; 1] [0%R; 0%R; ln 10] [0%R; 0%R; 0%R] (Some [8%R])
      (World [0; 1] [0; 1; 1] []) =
    (Ok (cluster_weight, zeros 2 1, [cov0; cov1], labels'),
     World [0; 1] labels' [single_point_warning]) /\
    (mget cov0 0 0 < 0)%R.
Proof.
  split; [reflexivity |].
  eexists. eexists. eexists. eexists. split.
  - unfold generate_probability_model, probability_model_body.
    cbn -[np_round exp logsumexp cos sin sqrt INR Rsum pow ln PI].
    reflexivity.
  - cbn -[np_round exp logsumexp cos sin sqrt INR Rsum pow ln PI].
    change (circular_variance
              (cluster_weights 3 [0%nat; 0%nat; 1%nat] 0 [0; 0; ln 10])
              (wrap_column 8 [0; PI / 2; 1]) < 0)%R.
    apply circular_variance_below_one_sample.
Qed.

(** ** The relabeling at a concrete input *)

(** Four grid points in two clusters, rooted at the points 0 and 1. *)
Lemma model_example_run
    (_covariance : matrix -> list R -> option (list R) -> matrix)
    (oas : matrix -> R -> nat -> matrix) :
  let X := Matrix 4 1 [[0%R]; [1%R]; [2%R]; [3%R]] in
  exists cluster_weight cluster_cov,
    generate_probability_model _covariance oas X X [0; 1; 2; 3]
      [0%R; 0%R; 0%R; 0%R] [0%R; 0%R; 0%R; 0%R] (Some [4%R])
      (World [0; 1] [0; 1; 0; 1] []) =
    (Ok (cluster_weight, zeros 2 1, cluster_cov, [2; 2; 2; 2]),
     World [0; 1] [2; 2; 2; 2] []).
Proof.
  intros X. eexists. eexists.
  unfold generate_probability_model, probability_model_body.
  cbn -[np_round exp logsumexp cos sin sqrt INR Rsum pow].
  reflexivity.
Qed.

(** C4: with the clusters of the points 0 and 1 (K = 2) the relabeling
    loop first turns label 0 into 1 and then every 1 into 2: the two
    clusters come back under the one label 2, and label 1 is not used. *)
Theorem model_relabeling_collapses_clusters
    (_covariance : matrix -> list R -> option (list R) -> matrix)
    (oas : matrix -> R -> nat -> matrix) :
  let X := Matrix 4 1 [[0%R]; [1%R]; [2%R]; [3%R]] in
  exists cluster_weight cluster_cov,
    generate_probability_model _covariance oas X X [0; 1; 2; 3]
      [0%R; 0%R; 0%R; 0%R] [0%R; 0%R; 0%R; 0%R] (Some [4%R])
      (World [0; 1] [0; 1; 0; 1] []) =
    (Ok (cluster_weight, zeros 2 1, cluster_cov, [2; 2; 2; 2]),
     World [0; 1] [2; 2; 2; 2] []).
Proof.
  exact (model_example_run _covariance oas).
Qed.

Lemma model_means_are_zero_witness :
  zeros 2 1 =
  zeros (length (w_centers (World [0; 1] [0; 1; 0; 1] [])))
        (shape1 (Matrix 4 1 [[0%R]; [1%R]; [2%R]; [3%R]])).
Proof.
  destruct (model_example_run (fun x _ _ => x) (fun c _ _ => c))
    as [cluster_weight [cluster_cov Hrun]].
  exact (model_means_are_zero _ _ _ _ _ _ _ _ _ _ _ _ _ _ Hrun).
Defined.

(** C7: both functions raise the cell-dimension error exactly when a cell
    is supplied whose length is not the data dimension, and when they do,
    the caller's centers and labels (and the output) are as before the
    call. *)
Theorem cell_dimension_error
    (metric : list R -> list R -> option (list R) -> R)
    (_covariance : matrix -> list R -> option (list R) -> matrix)
    (oas : matrix -> R -> nat -> matrix)
    (X descriptors : matrix) (probs descriptor_weights : list R)
    (descriptor_labels : list nat) (thrpcl : R)
    (metric_params : option (dict (list R))) (cell : option (list R)) (w : world) :
  (let r := quick_shift_refinement metric X probs thrpcl metric_params w in
   (fst r = Raise cell_error <->
    exists params c,
      metric_params = Some params /\
      dict_get params "cell_length" = Some c /\
      length c <> shape1 X) /\
   (fst r = Raise cell_error -> snd r = w)) /\
  (let r := generate_probability_model _covariance oas X descriptors
              descriptor_labels descriptor_weights probs cell w in
   (fst r = Raise cell_error <-> exists c, cell = Some c /\ shape1 X <> length c) /\
   (fst r = Raise cell_error -> snd r = w)).
Proof.
  split.
  - apply refinement_cell_error.
  - apply model_cell_error.
Qed.

(** ** The PCovR utilities at [mixing = 1] *)

Lemma Rltb_1_1 : Rltb 1 1 = false.
Proof. apply Rltb_false. lra. Qed.

Lemma Rgtb_1_0 : Rgtb 1 0 = true.
Proof. unfold Rgtb. apply Rltb_true. lra. Qed.

Lemma matmul_transpose_left (X : matrix) :
  matmul (transpose X) X =
  Ok (build (shape1 X) (shape1 X)
        (fun i j => Rsum (map (fun k => mget (transpose X) i k * mget X k j)%R
                              (range (shape0 X))))).
Proof.
  unfold matmul. simpl. rewrite Nat.eqb_refl. reflexivity.
Qed.

Lemma matmul_transpose_right (X : matrix) :
  matmul X (transpose X) =
  Ok (build (shape0 X) (shape0 X)
        (fun i j => Rsum (map (fun k => mget X i k * mget (transpose X) k j)%R
                              (range (shape1 X))))).
Proof.
  unfold matmul. simpl. rewrite Nat.eqb_refl. reflexivity.
Qed.

Lemma shape0_build (n m : nat) (f : nat -> nat -> R) : shape0 (build n m f) = n.
Proof. reflexivity. Qed.

Lemma shape1_build (n m : nat) (f : nat -> nat -> R) : shape1 (build n m f) = m.
Proof. reflexivity. Qed.

Lemma iadd_zeros_scale_one (n m : nat) (g : nat -> nat -> R) :
  iadd (zeros n m) (scale 1 (build n m g)) = Ok (build n m g).
Proof.
  unfold iadd, broadcastable, zeros, scale.
  rewrite !shape0_build, !shape1_build, !Nat.eqb_refl. cbn [andb negb orb]. f_equal.
  apply build_ext. intros i j Hi Hj.
  rewrite !mget_build by assumption. lra.
Qed.

Lemma iadd_zeros (n m : nat) (g : nat -> nat -> R) :
  iadd (zeros n m) (build n m g) = Ok (build n m g).
Proof.
  unfold iadd, broadcastable, zeros.
  rewrite !shape0_build, !shape1_build, !Nat.eqb_refl. cbn [andb negb orb]. f_equal.
  apply build_ext. intros i j Hi Hj.
  rewrite !mget_build by assumption. lra.
Qed.

Lemma Rsum_map_ext (f g : nat -> R) (l : list nat) :
  (forall k, In k l -> f k = g k) -> Rsum (map f l) = Rsum (map g l).
Proof.
  intros H. f_equal. apply map_ext_in. assumption.
Qed.

Lemma matmul_scale_one (X : matrix) :
  matmul (scale 1 X) (transpose X) = matmul X (transpose X).
Proof.
  unfold matmul, scale, transpose.
  rewrite !shape0_build, !shape1_build, !Nat.eqb_refl. cbn [negb]. f_equal.
  apply build_ext. intros i j Hi Hj.
  apply Rsum_map_ext. intros k Hk. apply in_seq in Hk.
  rewrite (mget_build _ _ (fun i j => 1 * mget X i j)%R) by lia. lra.
Qed.

(** C10: at [mixing = 1], [pcovr_covariance] without [return_isqrt]
    returns the product of [X.T] and [X] whatever [Y] and the two SVD
    routines are, and [pcovr_kernel] without a [kernel] keyword returns the
    product of [X] and [X.T] whatever [Y] is. *)
Theorem pcovr_mixing_one
    (linalg_svd : matrix -> outcome (matrix * list R * matrix))
    (randomized_svd :
       matrix -> nat -> option nat -> nat -> outcome (matrix * list R * matrix))
    (pairwise_kernels : matrix -> dict kwval -> outcome matrix)
    (X Y : matrix) (rcond : R) (rank : option nat) (random_state : nat)
    (iterated_power : option nat) (kernel_params : dict kwval) :
  dict_get kernel_params "kernel" = None ->
  (exists XtX,
     matmul (transpose X) X = Ok XtX /\
     pcovr_covariance linalg_svd randomized_svd 1 X Y rcond false rank
       random_state iterated_power = Ok (XtX, None)) /\
  (exists XXt,
     matmul X (transpose X) = Ok XXt /\
     pcovr_kernel pairwise_kernels 1 X Y kernel_params = Ok XXt).
Proof.
  intros Hkernel. split.
  - eexists. split; [apply matmul_transpose_left |].
    unfold pcovr_covariance. rewrite Rltb_1_1, Rgtb_1_0. cbn [orb obind].
    rewrite matmul_transpose_left. cbn [obind].
    rewrite iadd_zeros_scale_one. reflexivity.
  - eexists. split; [apply matmul_transpose_right |].
    unfold pcovr_kernel. rewrite Rltb_1_1, Rgtb_1_0, Hkernel. cbn [obind].
    rewrite matmul_scale_one, matmul_transpose_right. cbn [obind].
    apply iadd_zeros.
Qed.

Lemma pcovr_mixing_one_witness :
  let X := Matrix 2 1 [[1%R]; [2%R]] in
  let Y := Matrix 2 1 [[3%R]; [4%R]] in
  let svd := fun _ : matrix =>
               @Raise (matrix * list R * matrix) (ValueError "SVD did not converge") in
  let rsvd := fun (_ : matrix) (_ : nat) (_ : option nat) (_ : nat) =>
                @Raise (matrix * list R * matrix) (ValueError "SVD did not converge") in
  (exists XtX,
     matmul (transpose X) X = Ok XtX /\
     pcovr_covariance svd rsvd 1 X Y (1 / 2) false None 0 None = Ok (XtX, None)) /\
  (exists XXt,
     matmul X (transpose X) = Ok XXt /\
     pcovr_kernel (fun K _ => Ok K) 1 X Y [("gamma", KwObject)] = Ok XXt).
Proof.
  intros X Y svd rsvd.
  apply (pcovr_mixing_one svd rsvd (fun K _ => Ok K) X Y (1 / 2) None 0 None
           [("gamma", KwObject)]).
  reflexivity.
Defined.

(** * Further properties *)

(** ** [quick_shift_refinement]: what the caller's arrays go through *)

Lemma labels_only_refl (w : world) : labels_only w w.
Proof. repeat split. Qed.

Lemma labels_only_trans (w1 w2 w3 : world) :
  labels_only w1 w2 -> labels_only w2 w3 -> labels_only w1 w3.
Proof.
  intros [A1 [B1 C1]] [A2 [B2 C2]]. repeat split; congruence.
Qed.

Lemma for_each_labels_only {S : Type} (l : list nat) (body : nat -> S -> M S) :
  (forall i s w, labels_only w (snd (body i s w))) ->
  forall s w, labels_only w (snd (for_each l body s w)).
Proof.
  intros Hb. induction l as [| i l IH]; intros s w; simpl.
  - apply labels_only_refl.
  - unfold bind. specialize (Hb i s w).
    destruct (body i s w) as [[s' | e] w1]; simpl in *.
    + eapply labels_only_trans; [exact Hb | apply IH].
    + exact Hb.
Qed.

Section RefinementMore.

Variable metric : list R -> list R -> option (list R) -> R.
Variable X : matrix.
Variable probs : list R.
Variable thrpcl : R.

Lemma recenter_body_labels_only (i : nat) (cs : list nat) (w : world) :
  labels_only w (snd (recenter_body probs i cs w)).
Proof.
  unfold recenter_body. unfold_monad.
  destruct (getitem cs i) as [c |]; simpl; [| apply labels_only_refl].
  destruct (masked_argmax probs (ne_mask (w_labels w) c)) as [best |]; simpl;
    [| apply labels_only_refl].
  destruct (setitem cs i best) as [cs' |]; simpl; [| apply labels_only_refl].
  destruct (getitem cs' i) as [ci |]; simpl; [| apply labels_only_refl].
  repeat split. simpl. unfold relabel. apply length_map.
Qed.

Lemma refinement_run_labels (metric_params : option (dict (list R))) (w : world) :
  match quick_shift_refinement metric X probs thrpcl metric_params w with
  | (Ok (_, labels), w') => labels_only w w' /\ labels = w_labels w'
  | (Raise _, w') => labels_only w w'
  end.
Proof.
  unfold quick_shift_refinement. unfold bind at 1. unfold lift.
  destruct (refinement_cell X metric_params) as [cell | e];
    [| apply labels_only_refl].
  unfold refinement_body. unfold_monad.
  pose proof (flag_then_merge metric X probs thrpcl cell (logsumexp probs) w) as Hfm.
  cbv zeta in Hfm.
  destruct (for_each (range (length (w_centers w)))
              (flag_body probs thrpcl (logsumexp probs))
              (repeat false (length (w_centers w)), None) w)
    as [[[tm k] | e] w1].
  - destruct Hfm as [-> [_ ->]].
    destruct (0 <? count_true tm);
      [| split; [apply labels_only_refl | reflexivity]].
    destruct (np_concatenate _) as [cs |]; [| apply labels_only_refl].
    pose proof (for_each_labels_only (range (length cs)) (recenter_body probs)
                  recenter_body_labels_only cs w) as Hloop.
    destruct (for_each (range (length cs)) (recenter_body probs) cs w)
      as [[cs' | e] w2]; simpl in Hloop |- *;
      [split; [exact Hloop | reflexivity] | exact Hloop].
  - subst w1. apply labels_only_refl.
Qed.

(** X1: on every input, also when it ends in an error,
    [quick_shift_refinement] leaves the caller's [cluster_centers_idx]
    array and the output as they were, and the [labels] array keeps its
    length; the labels it returns are the caller's array, as the call has
    left it. *)
Theorem refinement_touches_labels_only (metric_params : option (dict (list R)))
    (w : world) :
  labels_only w
    (snd (quick_shift_refinement metric X probs thrpcl metric_params w)) /\
  (forall cs labels,
     fst (quick_shift_refinement metric X probs thrpcl metric_params w)
     = Ok (cs, labels) ->
     labels = w_labels
                (snd (quick_shift_refinement metric X probs thrpcl metric_params w))).
Proof.
  pose proof (refinement_run_labels metric_params w) as H.
  destruct (quick_shift_refinement metric X probs thrpcl metric_params w)
    as [[[cs0 labels0] | e] w']; simpl.
  - destruct H as [Hw Hl]. split; [exact Hw |].
    intros cs labels E. inversion E; subst. reflexivity.
  - split; [exact H |]. intros cs labels E. discriminate.
Qed.



(** X3: the re-centering never merges two clusters and never splits one.
    On root labels, once a flag is set, the function returns pairwise
    distinct centers, which are exactly the labels in use afterwards, and
    two points share a label afterwards exactly when they shared one
    before. *)
Theorem refinement_keeps_partition
    (metric_params : option (dict (list R))) (cell : option (list R)) (w : world)
    (c0 j0 : nat) (m0 : R) :
  refinement_cell X metric_params = Ok cell ->
  length probs = length (w_labels w) ->
  root_labels (w_labels w) ->
  In c0 (w_centers w) ->
  nth_error (w_labels w) j0 = Some c0 ->
  cluster_mass probs (w_labels w) c0 (logsumexp probs) = Ok m0 ->
  (thrpcl < m0)%R ->
  exists cs labels',
    quick_shift_refinement metric X probs thrpcl metric_params w =
    (Ok (cs, labels'), World (w_centers w) labels' (w_stdout w)) /\
    NoDup cs /\
    (forall c, In c cs <-> In c labels') /\
    (forall i j li lj,
       nth_error (w_labels w) i = Some li ->
       nth_error (w_labels w) j = Some lj ->
       (nth_error labels' i = nth_error labels' j <-> li = lj)).
Proof.
  intros Hcell Hlen Hroots Hc0 Hj0 Hm0 Habove.
  pose proof (refinement_recenters metric X probs thrpcl metric_params cell w
                c0 j0 m0 Hcell Hlen Hroots Hc0 Hj0 Hm0 Habove) as Hrun.
  cbv zeta in Hrun.
  set (L := w_labels w) in *. set (am := cluster_argmax probs L) in *.
  set (P := rev (fixed_points L)) in *.
  assert (Hroot_in : forall l, In l L -> nth_error L l = Some l).
  { intros l Hl. apply In_nth_error in Hl. destruct Hl as [i Hi].
    exact (Hroots i l Hi). }
  assert (Hmark : forall l, In l L -> mark P am l = am l).
  { intros l Hl. unfold mark.
    assert (E : existsb (Nat.eqb l) P = true).
    { apply existsb_exists. exists l. split; [| apply Nat.eqb_refl].
      unfold P. rewrite <- in_rev. apply fixed_points_in. apply Hroot_in.
      assumption. }
    rewrite E. reflexivity. }
  assert (Hinj : forall a b, nth_error L a = Some a -> nth_error L b = Some b ->
                   am a = am b -> a = b).
  { intros a b Ha Hb E.
    pose proof (am_member probs L Hlen a Ha) as Ma.
    pose proof (am_member probs L Hlen b Hb) as Mb.
    fold am in Ma, Mb. rewrite E in Ma. congruence. }
  exists (map am (fixed_points L)), (map (mark P am) L).
  split; [exact Hrun |]. split; [| split].
  - apply NoDup_map_NoDup_ForallPairs; [| apply fixed_points_NoDup].
    intros a b Ha Hb. apply Hinj; apply fixed_points_in; assumption.
  - intros c. rewrite !in_map_iff. split.
    + intros [f [<- Hf]]. apply fixed_points_in in Hf.
      exists f. split; [| eapply nth_error_In; eassumption].
      apply Hmark. eapply nth_error_In; eassumption.
    + intros [l [<- Hl]]. exists l. split; [symmetry; apply Hmark; assumption |].
      apply fixed_points_in. apply Hroot_in. assumption.
  - intros i j li lj Hi Hj. rewrite !nth_error_map, Hi, Hj. simpl.
    rewrite !Hmark by (eapply nth_error_In; eassumption).
    split.
    + intros E. inversion E. apply Hinj; try assumption;
        [exact (Hroots i li Hi) | exact (Hroots j lj Hj)].
    + intros ->. reflexivity.
Qed.

Lemma argwhere_from_nil (mask : list bool) (a : nat) :
  (forall i, ~ In i (concat (argwhere_from mask a))) -> argwhere_from mask a = [].
Proof.
  revert a. induction mask as [| b mask IH]; intros a H; [reflexivity |].
  simpl in *. destruct b.
  - exfalso. apply (H a). left. reflexivity.
  - apply IH. exact H.
Qed.

(** X4: if a flag is set but no point labels itself, line 294 has nothing
    to concatenate: the function ends in the [ValueError] of
    [np.concatenate], with the caller's arrays unchanged. *)
Theorem refinement_without_root_fails
    (metric_params : option (dict (list R))) (cell : option (list R)) (w : world)
    (c0 j0 : nat) (m0 : R) :
  refinement_cell X metric_params = Ok cell ->
  length probs = length (w_labels w) ->
  In c0 (w_centers w) ->
  nth_error (w_labels w) j0 = Some c0 ->
  cluster_mass probs (w_labels w) c0 (logsumexp probs) = Ok m0 ->
  (thrpcl < m0)%R ->
  (forall i, nth_error (w_labels w) i <> Some i) ->
  quick_shift_refinement metric X probs thrpcl metric_params w =
  (Raise (ValueError "need at least one array to concatenate"), w).
Proof.
  intros Hcell Hlen Hc0 Hj0 Hm0 Habove Hnoroot.
  unfold quick_shift_refinement, refinement_body. unfold_monad. rewrite Hcell.
  pose proof (flag_then_merge metric X probs thrpcl cell (logsumexp probs) w) as Hfm.
  destruct (flag_loop_run probs thrpcl (logsumexp probs) w (length (w_centers w))
              Hlen 0 (repeat false (length (w_centers w)), None) ltac:(lia))
    as [tm [k [Hrun [Hl [_ Hflags]]]]].
  { simpl. apply repeat_length. }
  cbv zeta in Hfm. unfold range in Hfm |- *. rewrite Hrun in Hfm |- *.
  destruct Hfm as [_ [_ Hmerge]]. rewrite Hmerge.
  apply In_nth_error in Hc0. destruct Hc0 as [i0 Hi0].
  assert (Hflag : nth_error tm i0 = Some true).
  { rewrite (Hflags i0 c0 m0); try assumption.
    - unfold Rgtb. rewrite Rltb_true by assumption. reflexivity.
    - split; [lia |]. simpl. apply nth_error_Some. congruence. }
  apply count_true_pos in Hflag.
  destruct (Nat.ltb_spec 0 (count_true tm)) as [_ |]; [| lia].
  change (seq 0 (length (w_labels w))) with (range (length (w_labels w))).
  assert (Hnil : argwhere (zip_with Nat.eqb (w_labels w)
                             (range (length (w_labels w)))) = []).
  { apply argwhere_from_nil. intros i Hi.
    apply (Hnoroot i). apply fixed_points_in. exact Hi. }
  rewrite Hnil. reflexivity.
Qed.

End RefinementMore.


Lemma refinement_keeps_partition_witness :
  exists cs labels',
    quick_shift_refinement (fun _ _ _ => 0%R) (Matrix 3 1 [[0%R]; [1%R]; [5%R]])
      [0%R; 1%R; 0%R] 0 None (World [0; 2] [0; 0; 2] []) =
    (Ok (cs, labels'), World [0; 2] labels' []) /\
    NoDup cs /\
    (forall c, In c cs <-> In c labels') /\
    (forall i j li lj,
       nth_error [0; 0; 2] i = Some li ->
       nth_error [0; 0; 2] j = Some lj ->
       (nth_error labels' i = nth_error labels' j <-> li = lj)).
Proof.
  apply (refinement_keeps_partition (fun _ _ _ => 0%R)
           (Matrix 3 1 [[0%R]; [1%R]; [5%R]]) [0%R; 1%R; 0%R] 0%R None None
           (World [0; 2] [0; 0; 2] []) 0 0
           (exp (logsumexp [0%R; 1%R] - logsumexp [0%R; 1%R; 0%R]))).
  - reflexivity.
  - reflexivity.
  - intros [| [| [| i]]] l H; simpl in H; inversion H; subst; try reflexivity.
    destruct i; discriminate.
  - left; reflexivity.
  - reflexivity.
  - reflexivity.
  - apply exp_pos.
Defined.

Lemma refinement_without_root_fails_witness :
  quick_shift_refinement (fun _ _ _ => 0%R) (Matrix 2 1 [[0%R]; [1%R]])
    [0%R; 1%R] 0 None (World [0] [1; 0] []) =
  (Raise (ValueError "need at least one array to concatenate"),
   World [0] [1; 0] []).
Proof.
  apply (refinement_without_root_fails (fun _ _ _ => 0%R)
           (Matrix 2 1 [[0%R]; [1%R]]) [0%R; 1%R] 0%R None None
           (World [0] [1; 0] []) 0 1
           (exp (logsumexp [1%R] - logsumexp [0%R; 1%R]))).
  - reflexivity.
  - reflexivity.
  - left; reflexivity.
  - reflexivity.
  - reflexivity.
  - apply exp_pos.
  - intros [| [| i]] H; simpl in H; try discriminate.
    destruct i; discriminate.
Defined.

(** ** [generate_probability_model]: the two loops *)

Lemma output_only_refl (w : world) : output_only w w.
Proof. split; reflexivity. Qed.

Lemma output_only_trans (w1 w2 w3 : world) :
  output_only w1 w2 -> output_only w2 w3 -> output_only w1 w3.
Proof. intros [A1 B1] [A2 B2]. split; congruence. Qed.

Section ModelMore.

Variable _covariance : matrix -> list R -> option (list R) -> matrix.
Variable oas : matrix -> R -> nat -> matrix.
Variable X : matrix.
Variable descriptors : matrix.
Variable descriptor_labels : list nat.
Variable descriptor_weights : list R.
Variable probs : list R.
Variable cell : option (list R).

Local Abbreviation model := (generate_probability_model _covariance oas X descriptors
                           descriptor_labels descriptor_weights probs cell).
Local Abbreviation update_cov := (_update_cluster_cov _covariance oas descriptors
                                descriptor_weights cell).
Local Abbreviation loop_body := (model_body _covariance oas X descriptors
                               descriptor_labels descriptor_weights probs cell).

Lemma update_cluster_cov_world (X' : matrix) (k : nat) (sample_labels : list nat)
    (p : list R) (idxroot center_idx : list nat) (w : world) :
  match update_cov X' k sample_labels p idxroot center_idx w with
  | (Ok _, w') =>
      exists c,
        nth_error center_idx k = Some c /\
        w' = World (w_centers w) (w_labels w)
               (if count_true (eq_mask idxroot c) =? 1
                then w_stdout w ++ [single_point_warning]
                else w_stdout w)
  | (Raise _, w') => output_only w w'
  end.
Proof.
  unfold _update_cluster_cov. unfold_monad.
  destruct (nth_error center_idx k) as [c |] eqn:Ec.
  - rewrite (getitem_Some _ _ _ Ec).
    destruct cell as [cl |].
    + destruct (_get_lcov_clusterp (shape0 X') (shape0 descriptors) X' idxroot c p cl);
        [| apply output_only_refl].
      destruct (count_true (eq_mask idxroot c) =? 1) eqn:E1.
      * destruct (_get_lcov_clusterp (shape0 descriptors) (shape0 descriptors)
                    descriptors sample_labels c descriptor_weights cl);
          [| apply output_only_refl].
        exists c. rewrite E1. split; reflexivity.
      * exists c. rewrite E1. split; [reflexivity |]. symmetry. apply world_eta.
    + destruct (_get_lcov_cluster _covariance (shape0 X') X' idxroot c p None);
        [| apply output_only_refl].
      destruct (count_true (eq_mask idxroot c) =? 1) eqn:E1.
      * destruct (_get_lcov_cluster _covariance (shape0 descriptors) descriptors
                    sample_labels c descriptor_weights None);
          [| apply output_only_refl].
        destruct (mask_select p (eq_mask idxroot c));
          [| split; reflexivity].
        exists c. rewrite E1. split; reflexivity.
      * destruct (mask_select p (eq_mask idxroot c));
          [| apply output_only_refl].
        exists c. rewrite E1. split; [reflexivity |]. symmetry. apply world_eta.
  - unfold getitem. rewrite Ec.
    destruct cell; apply output_only_refl.
Qed.

(** X5: [_update_cluster_cov] writes to neither caller array; when it
    returns, the warning has been printed once if the cluster has exactly
    one grid point and nothing has been printed otherwise. *)
Theorem update_cluster_cov_output (X' : matrix) (k : nat) (sample_labels : list nat)
    (p : list R) (idxroot center_idx : list nat) (w : world) :
  match update_cov X' k sample_labels p idxroot center_idx w with
  | (Ok _, w') =>
      exists c,
        nth_error center_idx k = Some c /\
        w' = World (w_centers w) (w_labels w)
               (if count_true (eq_mask idxroot c) =? 1
                then w_stdout w ++ [single_point_warning]
                else w_stdout w)
  | (Raise _, w') => output_only w w'
  end.
Proof.
  exact (update_cluster_cov_world X' k sample_labels p idxroot center_idx w).
Qed.

Lemma update_cov_output_only (X' : matrix) (k : nat) (sample_labels : list nat)
    (p : list R) (idxroot center_idx : list nat) (w : world) :
  output_only w (snd (update_cov X' k sample_labels p idxroot center_idx w)).
Proof.
  pose proof (update_cluster_cov_world X' k sample_labels p idxroot center_idx w) as H.
  destruct (update_cov X' k sample_labels p idxroot center_idx w) as [[cov | e] w'];
    simpl; [| exact H].
  destruct H as [c [_ ->]]. split; reflexivity.
Qed.

Lemma model_body_Ok (center_idx : list nat) (normpks : R) (d k : nat)
    (cw cw' : list R) (cc cc' : list matrix) (w w' : world) :
  loop_body center_idx normpks d k (cw, cc) w = (Ok (cw', cc'), w') ->
  output_only w w' /\
  k < length cw /\
  exists c m,
    nth_error center_idx k = Some c /\
    cluster_mass probs (w_labels w) c normpks = Ok m /\
    cw' = set_nth cw k m.
Proof.
  unfold model_body. unfold_monad. intros H.
  destruct (nth_error center_idx k) as [c |] eqn:Ec;
    [| unfold getitem in H; rewrite Ec in H; discriminate].
  rewrite (getitem_Some _ _ _ Ec) in H.
  destruct (cluster_mass probs (w_labels w) c normpks) as [m |] eqn:Em;
    [| discriminate].
  unfold setitem in H at 1.
  destruct (Nat.ltb_spec k (length cw)) as [Hk |]; [| discriminate].
  pose proof (update_cov_output_only X k descriptor_labels probs (w_labels w)
                center_idx w) as Hw.
  destruct (update_cov X k descriptor_labels probs (w_labels w) center_idx w)
    as [[cov | e] w1]; [| discriminate].
  destruct (set_cov cc d k cov); [| discriminate].
  inversion H; subst. simpl in Hw.
  split; [exact Hw |]. split; [exact Hk |].
  exists c, m. repeat split; assumption.
Qed.

Lemma model_loop_Ok (center_idx : list nat) (normpks : R) (d n : nat) :
  forall (a : nat) (cw cw' : list R) (cc cc' : list matrix) (w w' : world),
    for_each (seq a n) (loop_body center_idx normpks d) (cw, cc) w
    = (Ok (cw', cc'), w') ->
    output_only w w' /\
    length cw' = length cw /\
    (n = 0 \/ a + n <= length cw) /\
    (forall i, i < a -> nth_error cw' i = nth_error cw i) /\
    (forall i, a <= i < a + n ->
       exists c m,
         nth_error center_idx i = Some c /\
         cluster_mass probs (w_labels w) c normpks = Ok m /\
         nth_error cw' i = Some m).
Proof.
  induction n as [| n IH]; intros a cw cw' cc cc' w w' H;
    cbn [for_each seq] in H.
  - unfold_monad. inversion H; subst.
    split; [apply output_only_refl |]. split; [reflexivity |].
    split; [left; reflexivity |]. split; [intros; reflexivity | intros; lia].
  - unfold bind at 1 in H.
    destruct (loop_body center_idx normpks d a (cw, cc) w) as [[[cw1 cc1] | e] w1]
      eqn:E; [| discriminate].
    apply model_body_Ok in E.
    destruct E as [Hw1 [Ha [c [m [Hc [Hm ->]]]]]].
    apply IH in H. rewrite set_nth_length in H.
    destruct H as [Hw' [Hlen [Hbound [Hlow Hhigh]]]].
    destruct Hw1 as [Hc1 Hl1].
    split; [eapply output_only_trans; [split; eassumption | exact Hw'] |].
    split; [exact Hlen |]. split; [right; destruct Hbound; lia |]. split.
    + intros i Hi. rewrite Hlow by lia. apply set_nth_other. lia.
    + intros i Hi. destruct (Nat.eq_dec i a) as [-> | Hne].
      * exists c, m. repeat split; try assumption.
        rewrite Hlow by lia. apply set_nth_same. exact Ha.
      * destruct (Hhigh i ltac:(lia)) as [c' [m' [Hc' [Hm' Hn']]]].
        exists c', m'. rewrite Hl1 in Hm'. repeat split; assumption.
Qed.

Lemma relabel_loop_Ok (center_idx : list nat) (l : list nat) :
  forall (w w' : world),
    for_each l (relabel_body center_idx) tt w = (Ok tt, w') ->
    Forall (fun k => k < length center_idx) l /\
    w' = World (w_centers w) (relabel_passes center_idx l (w_labels w)) (w_stdout w).
Proof.
  induction l as [| k l IH]; intros w w' H; simpl in H.
  - unfold_monad. inversion H; subst. split; [constructor |].
    symmetry. apply world_eta.
  - unfold bind at 1 in H. unfold relabel_body at 1 in H. unfold_monad.
    destruct (nth_error center_idx k) as [c |] eqn:Ec;
      [| unfold getitem in H; rewrite Ec in H; discriminate].
    rewrite (getitem_Some _ _ _ Ec) in H.
    apply IH in H. simpl in H. destruct H as [Hl ->].
    split.
    + constructor; [apply nth_error_Some; congruence | exact Hl].
    + unfold relabel_passes. simpl. rewrite (nth_error_nth _ _ 0 Ec). reflexivity.
Qed.

(** What a normal return of [generate_probability_model] tells. *)
Lemma model_Ok (w w' : world) (cw : list R) (mean : matrix) (cc : list matrix)
    (lab : list nat) :
  model w = (Ok (cw, mean, cc, lab), w') ->
  let u := np_unique (w_labels w) in
  let n := length (w_centers w) in
  n <= length u /\
  lab = relabel_passes u (range n) (w_labels w) /\
  w_labels w' = lab /\
  w_centers w' = w_centers w /\
  length cw = n /\
  (forall i, i < n ->
     exists c m,
       nth_error u i = Some c /\
       cluster_mass probs (w_labels w) c (logsumexp probs) = Ok m /\
       nth_error cw i = Some m).
Proof.
  intros H u n.
  unfold generate_probability_model in H. unfold bind at 1 in H. unfold lift in H.
  destruct (model_cell_check X cell); [| discriminate].
  unfold probability_model_body in H. unfold_monad. fold u in H. fold n in H.
  destruct (for_each (range n) (loop_body u (logsumexp probs) (shape1 X))
              (repeat 0%R n, repeat (zeros (shape1 X) (shape1 X)) n) w)
    as [[[cw1 cc1] | e] w1] eqn:E1; [| discriminate].
  destruct (for_each (range n) (relabel_body u) tt w1) as [[[] | e] w2] eqn:E2;
    [| discriminate].
  inversion H; subst. clear H.
  apply model_loop_Ok in E1. rewrite repeat_length in E1.
  destruct E1 as [[Hc1 Hl1] [Hlen [_ [_ Hw]]]].
  apply relabel_loop_Ok in E2. destruct E2 as [Hall ->]. simpl.
  rewrite Hl1, Hc1.
  split.
  { destruct n as [| n']; [lia |].
    rewrite Forall_forall in Hall. specialize (Hall n').
    assert (In n' (range (S n'))) by (apply in_seq; lia).
    specialize (Hall H). lia. }
  repeat split; try reflexivity; try assumption.
  intros i Hi. apply Hw. lia.
Qed.

(** X6: [generate_probability_model] returns only when
    [cluster_center_idx] is no longer than the list of distinct labels:
    with more centers than clusters, [center_idx[k]] runs out of bounds. *)
Theorem model_returns_only_within_labels (w w' : world) (cw : list R) (mean : matrix)
    (cc : list matrix) (lab : list nat) :
  model w = (Ok (cw, mean, cc, lab), w') ->
  length (w_centers w) <= length (np_unique (w_labels w)).
Proof.
  intros H. apply model_Ok in H. cbv zeta in H. apply H.
Qed.

(** ** The distinct labels and the relabeling *)

Lemma le_fold_max (v : nat) (l : list nat) : In v l -> v <= fold_right Nat.max 0 l.
Proof.
  induction l as [| x l IH]; intros H; [contradiction |].
  simpl. destruct H as [-> | H]; [lia | specialize (IH H); lia].
Qed.

Lemma np_unique_in (labels : list nat) (v : nat) :
  In v (np_unique labels) <-> In v labels.
Proof.
  unfold np_unique. rewrite filter_In, existsb_exists. split.
  - intros [_ [x [Hx E]]]. apply Nat.eqb_eq in E. subst x. exact Hx.
  - intros H. split.
    + apply in_seq. pose proof (le_fold_max v labels H). lia.
    + exists v. split; [exact H | apply Nat.eqb_refl].
Qed.

Lemma filter_seq_increasing (f : nat -> bool) (n : nat) :
  forall a, increasing (filter f (seq a n)).
Proof.
  induction n as [| n IH]; intros a i j vi vj Hi Hj Hij; simpl in Hi, Hj.
  - destruct i; discriminate.
  - assert (Hrest : forall k v, nth_error (filter f (seq (S a) n)) k = Some v -> a < v).
    { intros k v Hk. apply nth_error_In in Hk. apply filter_In in Hk.
      destruct Hk as [Hk _]. apply in_seq in Hk. lia. }
    destruct (f a).
    + destruct j as [| j]; [lia |]. simpl in Hj.
      destruct i as [| i]; simpl in Hi.
      * inversion Hi; subst. eapply Hrest; eassumption.
      * apply (IH (S a) i j vi vj Hi Hj). lia.
    + apply (IH (S a) i j vi vj Hi Hj Hij).
Qed.

Lemma np_unique_increasing (labels : list nat) : increasing (np_unique labels).
Proof. unfold np_unique, range. apply filter_seq_increasing. Qed.

Lemma increasing_injective (u : list nat) (i j v : nat) :
  increasing u -> nth_error u i = Some v -> nth_error u j = Some v -> i = j.
Proof.
  intros Hinc Hi Hj.
  destruct (Nat.lt_trichotomy i j) as [H | [H | H]]; [| exact H |].
  - pose proof (Hinc i j v v Hi Hj H). lia.
  - pose proof (Hinc j i v v Hj Hi H). lia.
Qed.

Lemma increasing_lower_bound (u : list nat) :
  increasing u ->
  (forall v1, nth_error u 1 = Some v1 -> 2 <= v1) ->
  forall t v, 1 <= t -> nth_error u t = Some v -> t + 1 <= v.
Proof.
  intros Hinc H1. induction t as [| t IH]; intros v Ht Hv; [lia |].
  destruct t as [| t].
  - specialize (H1 v Hv). lia.
  - destruct (nth_error u (S t)) as [v' |] eqn:E.
    + specialize (IH v' ltac:(lia) eq_refl).
      pose proof (Hinc (S t) (S (S t)) v' v E Hv ltac:(lia)). lia.
    + apply nth_error_None in E.
      assert (S (S t) < length u) by (apply nth_error_Some; congruence). lia.
Qed.

Lemma index_of_nth (l : nat) (u : list nat) :
  In l u -> nth_error u (index_of l u) = Some l.
Proof.
  induction u as [| v u IH]; intros H; [contradiction |].
  simpl. destruct (Nat.eqb_spec v l) as [-> | Hne]; [reflexivity |].
  simpl. apply IH. destruct H as [H | H]; [contradiction | exact H].
Qed.

Lemma index_of_at (u : list nat) (i v : nat) :
  increasing u -> nth_error u i = Some v -> index_of v u = i.
Proof.
  intros Hinc Hi.
  apply (increasing_injective u _ _ v Hinc); [| exact Hi].
  apply index_of_nth. eapply nth_error_In; eassumption.
Qed.

(** One pass of the relabeling loop, when no new label can meet an old
    one that is still to be processed. *)
Lemma relabel_pass (u L : list nat) (t : nat) :
  increasing u ->
  (forall l, In l L -> In l u) ->
  (forall v1, nth_error u 1 = Some v1 -> 2 <= v1) ->
  t < length u ->
  relabel (nth t u 0) (t + 1) (map (relabelled_upto u t) L)
  = map (relabelled_upto u (S t)) L.
Proof.
  intros Hinc Hsub H1 Ht. unfold relabel. rewrite map_map.
  apply map_ext_in. intros l Hl.
  pose proof (index_of_nth l u (Hsub l Hl)) as Hidx.
  destruct (nth_error u t) as [ut |] eqn:Eut;
    [| apply nth_error_None in Eut; lia].
  rewrite (nth_error_nth _ _ 0 Eut).
  unfold relabelled_upto.
  destruct (Nat.ltb_spec (index_of l u) t) as [Hlt | Hge].
  - destruct (Nat.ltb_spec (index_of l u) (S t)); [| lia].
    pose proof (increasing_lower_bound u Hinc H1 t ut ltac:(lia) Eut) as Hlow.
    destruct (Nat.eqb_spec (S (index_of l u)) ut); [lia | reflexivity].
  - destruct (Nat.eqb_spec l ut) as [-> | Hne].
    + rewrite (index_of_at u t ut Hinc Eut).
      destruct (Nat.ltb_spec t (S t)); lia.
    + destruct (Nat.ltb_spec (index_of l u) (S t)) as [Hlt' |]; [| reflexivity].
      assert (index_of l u = t) by lia. exfalso. apply Hne. congruence.
Qed.

Lemma relabel_passes_dense (u L : list nat) (n : nat) :
  increasing u ->
  (forall l, In l L -> In l u) ->
  (forall v1, nth_error u 1 = Some v1 -> 2 <= v1) ->
  forall t, t + n <= length u ->
    relabel_passes u (seq t n) (map (relabelled_upto u t) L)
    = map (relabelled_upto u (t + n)) L.
Proof.
  intros Hinc Hsub H1. induction n as [| n IH]; intros t Ht.
  - simpl. rewrite Nat.add_0_r. reflexivity.
  - unfold relabel_passes in *. simpl.
    rewrite (relabel_pass u L t Hinc Hsub H1) by lia.
    rewrite IH by lia. f_equal. f_equal. lia.
Qed.

Lemma second_label_bound (labels : list nat) :
  ~ (In 0 labels /\ In 1 labels) ->
  forall v1, nth_error (np_unique labels) 1 = Some v1 -> 2 <= v1.
Proof.
  intros Hnot v1 H1.
  destruct (nth_error (np_unique labels) 0) as [v0 |] eqn:E0.
  - pose proof (np_unique_increasing labels 0 1 v0 v1 E0 H1 ltac:(lia)) as Hlt.
    destruct (Nat.le_gt_cases 2 v1) as [| Hsmall]; [assumption |].
    exfalso. apply Hnot.
    assert (v0 = 0) by lia. assert (v1 = 1) by lia. subst.
    split; apply np_unique_in; eapply nth_error_In; eassumption.
  - apply nth_error_None in E0.
    assert (1 < length (np_unique labels)) by (apply nth_error_Some; congruence).
    lia.
Qed.

Lemma relabelled_upto_zero (u L : list nat) : map (relabelled_upto u 0) L = L.
Proof.
  rewrite <- (map_id L) at 2. apply map_ext. intros l. reflexivity.
Qed.

(** The labels that the relabeling loop leaves when it runs over all the
    distinct labels and the points 0 and 1 are not both among them. *)
Lemma relabel_all_dense (labels : list nat) :
  ~ (In 0 labels /\ In 1 labels) ->
  relabel_passes (np_unique labels) (range (length (np_unique labels))) labels
  = map (fun l => S (index_of l (np_unique labels))) labels.
Proof.
  intros Hnot. set (u := np_unique labels).
  rewrite <- (relabelled_upto_zero u labels) at 1. unfold range.
  rewrite (relabel_passes_dense u labels (length u) (np_unique_increasing labels));
    [| intros l Hl; apply np_unique_in; exact Hl
     | apply second_label_bound; exact Hnot
     | lia ].
  apply map_ext_in. intros l Hl. unfold relabelled_upto. simpl.
  assert (Hidx : index_of l u < length u).
  { apply nth_error_Some. rewrite index_of_nth; [discriminate |].
    apply np_unique_in. exact Hl. }
  destruct (Nat.ltb_spec (index_of l u) (length u)); [reflexivity | lia].
Qed.

(** X7: when [cluster_center_idx] has one entry per distinct label and the
    points 0 and 1 are not both cluster labels, the labels returned (and
    left in the caller's array) are a dense relabeling: each point gets one
    plus the rank of its old label among the distinct labels, every value
    of 1..K is used, and two points share a label exactly when they did
    before. *)
Theorem model_relabels_densely (w w' : world) (cw : list R) (mean : matrix)
    (cc : list matrix) (lab : list nat) :
  model w = (Ok (cw, mean, cc, lab), w') ->
  length (w_centers w) = length (np_unique (w_labels w)) ->
  ~ (In 0 (w_labels w) /\ In 1 (w_labels w)) ->
  let u := np_unique (w_labels w) in
  w_labels w' = lab /\
  lab = map (fun l => S (index_of l u)) (w_labels w) /\
  (forall j l', nth_error lab j = Some l' -> 1 <= l' <= length u) /\
  (forall v, 1 <= v <= length u -> In v lab) /\
  (forall i j li lj,
     nth_error (w_labels w) i = Some li ->
     nth_error (w_labels w) j = Some lj ->
     (nth_error lab i = nth_error lab j <-> li = lj)).
Proof.
  intros Hrun Hlen Hnot u.
  apply model_Ok in Hrun. cbv zeta in Hrun.
  destruct Hrun as [_ [Hlab [Hw' _]]].
  rewrite Hlen in Hlab. rewrite (relabel_all_dense _ Hnot) in Hlab. fold u in Hlab.
  set (L := w_labels w) in *.
  assert (Hidx : forall l, In l L -> nth_error u (index_of l u) = Some l).
  { intros l Hl. apply index_of_nth. apply np_unique_in. exact Hl. }
  split; [exact Hw' |]. split; [exact Hlab |]. subst lab. split; [| split].
  - intros j l' Hj. rewrite nth_error_map in Hj.
    destruct (nth_error L j) as [l |] eqn:El; [| discriminate].
    simpl in Hj. inversion Hj; subst l'.
    assert (index_of l u < length u).
    { apply nth_error_Some. rewrite Hidx; [discriminate |].
      eapply nth_error_In; eassumption. }
    lia.
  - intros v Hv.
    destruct (nth_error u (v - 1)) as [l |] eqn:El;
      [| apply nth_error_None in El; lia].
    apply in_map_iff. exists l. split.
    + rewrite (index_of_at u (v - 1) l (np_unique_increasing L) El). lia.
    + apply np_unique_in. eapply nth_error_In; eassumption.
  - intros i j li lj Hi Hj. rewrite !nth_error_map, Hi, Hj. simpl. split.
    + intros E. inversion E as [E'].
      pose proof (Hidx li ltac:(eapply nth_error_In; eassumption)) as Ha.
      pose proof (Hidx lj ltac:(eapply nth_error_In; eassumption)) as Hb.
      rewrite E' in Ha. congruence.
    + intros ->. reflexivity.
Qed.

Lemma relabel_passes_pointwise (u l : list nat) :
  forall labels,
    relabel_passes u l labels
    = map (fun x => fold_left (fun v k => if v =? nth k u 0 then k + 1 else v) l x)
          labels.
Proof.
  unfold relabel_passes. induction l as [| k l IH]; intros labels; simpl.
  - symmetry. apply map_id.
  - rewrite IH. unfold relabel. rewrite map_map. reflexivity.
Qed.

Lemma np_unique_head_zero (labels : list nat) :
  In 0 labels -> nth_error (np_unique labels) 0 = Some 0.
Proof.
  intros H. apply np_unique_in in H. apply In_nth_error in H.
  destruct H as [i Hi]. destruct i as [| i]; [exact Hi |].
  destruct (nth_error (np_unique labels) 0) as [v0 |] eqn:E0.
  - pose proof (np_unique_increasing labels 0 (S i) v0 0 E0 Hi ltac:(lia)). lia.
  - apply nth_error_None in E0.
    assert (S i < length (np_unique labels)) by (apply nth_error_Some; congruence).
    lia.
Qed.

(** X8: whenever the points 0 and 1 are both cluster labels and at least
    two centers are passed, every point of the cluster of point 0 comes
    back with the label of the points of the cluster of point 1: the first
    pass of the relabeling loop writes 1 over 0, and from then on the two
    clusters are one. *)
Theorem model_merges_clusters_zero_and_one (w w' : world) (cw : list R)
    (mean : matrix) (cc : list matrix) (lab : list nat) (i j : nat) :
  model w = (Ok (cw, mean, cc, lab), w') ->
  2 <= length (w_centers w) ->
  nth_error (w_labels w) i = Some 0 ->
  nth_error (w_labels w) j = Some 1 ->
  exists l, nth_error lab i = Some l /\ nth_error lab j = Some l.
Proof.
  intros Hrun Hn Hi Hj.
  apply model_Ok in Hrun. cbv zeta in Hrun.
  destruct Hrun as [_ [Hlab _]].
  rewrite relabel_passes_pointwise in Hlab. subst lab.
  rewrite !nth_error_map, Hi, Hj. simpl.
  destruct (length (w_centers w)) as [| n]; [lia |].
  unfold range. simpl.
  pose proof (np_unique_head_zero (w_labels w)
                ltac:(eapply nth_error_In; eassumption)) as H0.
  rewrite (nth_error_nth _ _ 0 H0). simpl.
  eexists. split; reflexivity.
Qed.

(** ** The cluster weights *)

Lemma increasing_NoDup (u : list nat) : increasing u -> NoDup u.
Proof.
  intros Hinc. apply NoDup_nth_error. intros i j Hi E.
  destruct (nth_error u i) as [v |] eqn:Ei;
    [| apply nth_error_None in Ei; lia].
  symmetry in E. exact (increasing_injective u i j v Hinc Ei E).
Qed.

Lemma Rsum_indicator (u : list nat) (l : nat) (v : R) :
  NoDup u ->
  Rsum (map (fun c => if l =? c then v else 0%R) u) = if existsb (Nat.eqb l) u then v else 0%R.
Proof.
  induction u as [| c u IH]; intros Hnd; simpl; [reflexivity |].
  inversion Hnd as [| ? ? Hnotin Hnd']; subst. rewrite (IH Hnd').
  destruct (Nat.eqb_spec l c) as [-> | Hne]; simpl.
  - destruct (existsb (Nat.eqb c) u) eqn:E; [| lra].
    exfalso. apply existsb_exists in E. destruct E as [x [Hx Ex]].
    apply Nat.eqb_eq in Ex. subst x. contradiction.
  - lra.
Qed.

Lemma Rsum_map_plus {A : Type} (f g : A -> R) (u : list A) :
  Rsum (map (fun c => f c + g c)%R u) = (Rsum (map f u) + Rsum (map g u))%R.
Proof.
  induction u as [| c u IH]; simpl; [lra | rewrite IH; lra].
Qed.

Lemma Rsum_map_div {A : Type} (f : A -> R) (T : R) (u : list A) :
  Rsum (map (fun c => f c / T)%R u) = (Rsum (map f u) / T)%R.
Proof.
  induction u as [| c u IH]; simpl; [lra | rewrite IH; lra].
Qed.

(** The members of the clusters, taken cluster by cluster, are all the
    points. *)
Lemma partition_sum (u : list nat) (p : list R) :
  NoDup u ->
  forall L, length p = length L -> (forall l, In l L -> In l u) ->
    Rsum (map (fun c => Rsum (map exp (compress p (eq_mask L c)))) u)
    = Rsum (map exp p).
Proof.
  intros Hnd. induction p as [| x p IH]; intros [| l L] Hlen Hsub;
    simpl in Hlen; try lia.
  - simpl. clear Hnd Hsub Hlen.
    induction u as [| c u IHu]; simpl; [reflexivity | rewrite IHu; lra].
  - rewrite (map_ext _ (fun c => (if l =? c then exp x else 0) +
                                 Rsum (map exp (compress p (eq_mask L c))))%R).
    + rewrite Rsum_map_plus, (Rsum_indicator u l (exp x) Hnd).
      rewrite (IH L ltac:(lia)) by (intros l' Hl'; apply Hsub; right; exact Hl').
      assert (E : existsb (Nat.eqb l) u = true).
      { apply existsb_exists. exists l. split; [| apply Nat.eqb_refl].
        apply Hsub. left. reflexivity. }
      rewrite E. simpl. reflexivity.
    + intros c. simpl. destruct (l =? c); simpl; lra.
Qed.

Lemma cluster_mass_lengths (p : list R) (L : list nat) (c : nat) (n m : R) :
  cluster_mass p L c n = Ok m -> length p = length L.
Proof.
  unfold cluster_mass, mask_select, eq_mask. rewrite length_map.
  destruct (Nat.eqb_spec (length p) (length L)); [intros; assumption | discriminate].
Qed.

(** X9: with one center per distinct label and at least one grid point,
    the weights that [generate_probability_model] returns are positive and
    sum to one. *)
Theorem model_weights_sum_to_one (w w' : world) (cw : list R) (mean : matrix)
    (cc : list matrix) (lab : list nat) :
  model w = (Ok (cw, mean, cc, lab), w') ->
  length (w_centers w) = length (np_unique (w_labels w)) ->
  w_labels w <> [] ->
  Rsum cw = 1%R /\ Forall (fun m => 0 < m)%R cw.
Proof.
  intros Hrun Hlen Hne.
  apply model_Ok in Hrun. cbv zeta in Hrun.
  destruct Hrun as [_ [_ [_ [_ [Hcw Hmass]]]]].
  set (L := w_labels w) in *. set (u := np_unique L) in *.
  set (n := length (w_centers w)) in *.
  assert (Hn : 0 < n).
  { destruct L as [| l0 L'] eqn:EL; [contradiction |].
    assert (In l0 u) by (apply np_unique_in; left; reflexivity).
    destruct u; [contradiction | simpl in Hlen; lia]. }
  assert (Hpl : length probs = length L).
  { destruct (Hmass 0 Hn) as [c [m [_ [Hm _]]]].
    exact (cluster_mass_lengths _ _ _ _ _ Hm). }
  assert (Hcw_eq : cw = map (fun c => exp (logsumexp (compress probs (eq_mask L c))
                                           - logsumexp probs)) u).
  { apply nth_error_ext. intros i. rewrite nth_error_map.
    destruct (Nat.lt_ge_cases i n) as [Hi | Hi].
    - destruct (Hmass i Hi) as [c [m [Hc [Hm Hcwi]]]].
      rewrite Hcwi, Hc. simpl.
      rewrite (cluster_mass_ok probs L c (logsumexp probs) Hpl) in Hm.
      inversion Hm. reflexivity.
    - assert (E1 : nth_error cw i = None) by (apply nth_error_None; lia).
      assert (E2 : nth_error u i = None) by (apply nth_error_None; lia).
      rewrite E1, E2. reflexivity. }
  assert (Hprobs : probs <> []).
  { intros E. rewrite E in Hpl. simpl in Hpl. destruct L; [contradiction | discriminate]. }
  split.
  - rewrite Hcw_eq.
    rewrite (map_ext_in _ (fun c => Rsum (map exp (compress probs (eq_mask L c)))
                                    / Rsum (map exp probs))%R).
    + rewrite Rsum_map_div.
      rewrite (partition_sum u probs (increasing_NoDup u (np_unique_increasing L))
                 L Hpl)
        by (intros l Hl; apply np_unique_in; exact Hl).
      pose proof (Rsum_exp_pos probs Hprobs). field. lra.
    + intros c Hc. apply exp_logsumexp_ratio; [| exact Hprobs].
      apply compress_members; [exact Hpl | apply np_unique_in; exact Hc].
  - rewrite Hcw_eq. apply Forall_forall. intros m Hm.
    apply in_map_iff in Hm. destruct Hm as [c [<- _]]. apply exp_pos.
Qed.

(** ** The weights handed to the covariance estimator *)

(** X10: for a cluster with a member, the weights that
    [_get_lcov_cluster] hands to [_covariance] are a probability vector
    over the points: none is negative, the points outside the cluster get
    zero, and they sum to one. *)
Theorem lcov_cluster_weights_are_normalised (N : nat) (x : matrix)
    (clroots : list nat) (idcl : nat) (p : list R) (cl : option (list R)) :
  length clroots = N -> length p = N -> In idcl clroots ->
  exists ww,
    _get_lcov_cluster _covariance N x clroots idcl p cl = Ok (_covariance x ww cl) /\
    length ww = N /\
    Rsum ww = 1%R /\
    Forall (fun v => 0 <= v)%R ww /\
    (forall j l, nth_error clroots j = Some l -> l <> idcl -> nth j ww 0%R = 0%R).
Proof.
  intros Hc Hp Hin. unfold _get_lcov_cluster.
  assert (Hmask : length (eq_mask clroots idcl) = N)
    by (unfold eq_mask; rewrite length_map; assumption).
  unfold mask_select. rewrite Hp, Hmask, Nat.eqb_refl. cbn [obind].
  unfold mask_assign. rewrite repeat_length, Hmask, Nat.eqb_refl. cbn [negb].
  rewrite length_map, compress_length by lia. rewrite Nat.eqb_refl.
  cbn [negb obind]. eexists. split; [reflexivity |].
  rewrite <- Hmask.
  split; [rewrite mask_put_length; apply repeat_length |]. split; [| split].
  - rewrite mask_put_sum by (rewrite length_map; apply compress_length; lia).
    rewrite Rsum_exp_shift. unfold logsumexp.
    assert (Hpos : (0 < Rsum (map exp (compress p (eq_mask clroots idcl))))%R).
    { apply Rsum_exp_pos. apply compress_members; [lia | exact Hin]. }
    rewrite exp_ln by exact Hpos. field. lra.
  - apply mask_put_nonneg. apply Forall_forall. intros v Hv.
    apply in_map_iff in Hv. destruct Hv as [q [<- _]].
    left. apply exp_pos.
  - intros j l Hj Hne. apply mask_put_outside.
    unfold eq_mask. rewrite nth_error_map, Hj. simpl.
    destruct (Nat.eqb_spec l idcl); [contradiction | reflexivity].
Qed.

End ModelMore.

(** Four grid points in two clusters, rooted at the points 1 and 3. *)
Lemma model_example_run_apart
    (_covariance : matrix -> list R -> option (list R) -> matrix)
    (oas : matrix -> R -> nat -> matrix) :
  let X := Matrix 4 1 [[0%R]; [1%R]; [2%R]; [3%R]] in
  exists cluster_weight cluster_cov,
    generate_probability_model _covariance oas X X [0; 1; 2; 3]
      [0%R; 0%R; 0%R; 0%R] [0%R; 0%R; 0%R; 0%R] (Some [4%R])
      (World [1; 3] [1; 3; 1; 3] []) =
    (Ok (cluster_weight, zeros 2 1, cluster_cov, [1; 2; 1; 2]),
     World [1; 3] [1; 2; 1; 2] []).
Proof.
  intros X. eexists. eexists.
  unfold generate_probability_model, probability_model_body.
  cbn -[np_round exp logsumexp cos sin sqrt INR Rsum pow].
  reflexivity.
Qed.

Lemma model_returns_only_within_labels_witness :
  length (w_centers (World [0; 1] [0; 1; 0; 1] []))
  <= length (np_unique (w_labels (World [0; 1] [0; 1; 0; 1] []))).
Proof.
  destruct (model_example_run (fun x _ _ => x) (fun c _ _ => c))
    as [cluster_weight [cluster_cov Hrun]].
  exact (model_returns_only_within_labels _ _ _ _ _ _ _ _ _ _ _ _ _ _ Hrun).
Defined.

Lemma model_relabels_densely_witness :
  let L := [1; 3; 1; 3] in
  let lab := [1; 2; 1; 2] in
  let u := np_unique L in
  w_labels (World [1; 3] lab []) = lab /\
  lab = map (fun l => S (index_of l u)) L /\
  (forall j l', nth_error lab j = Some l' -> 1 <= l' <= length u) /\
  (forall v, 1 <= v <= length u -> In v lab) /\
  (forall i j li lj,
     nth_error L i = Some li ->
     nth_error L j = Some lj ->
     (nth_error lab i = nth_error lab j <-> li = lj)).
Proof.
  destruct (model_example_run_apart (fun x _ _ => x) (fun c _ _ => c))
    as [cluster_weight [cluster_cov Hrun]].
  refine (model_relabels_densely _ _ _ _ _ _ _ _ _ _ _ _ _ _ Hrun _ _).
  - reflexivity.
  - simpl. intros [[H | [H | [H | [H | []]]]] _]; discriminate.
Defined.

Lemma model_merges_clusters_zero_and_one_witness :
  exists l,
    nth_error [2; 2; 2; 2] 0 = Some l /\ nth_error [2; 2; 2; 2] 1 = Some l.
Proof.
  destruct (model_example_run (fun x _ _ => x) (fun c _ _ => c))
    as [cluster_weight [cluster_cov Hrun]].
  refine (model_merges_clusters_zero_and_one _ _ _ _ _ _ _ _ _ _ _ _ _ _ 0 1
            Hrun _ _ _).
  - simpl. lia.
  - reflexivity.
  - reflexivity.
Defined.

Lemma model_weights_sum_to_one_witness :
  exists cw : list R, Rsum cw = 1%R /\ Forall (fun m => 0 < m)%R cw.
Proof.
  destruct (model_example_run (fun x _ _ => x) (fun c _ _ => c))
    as [cluster_weight [cluster_cov Hrun]].
  exists cluster_weight.
  refine (model_weights_sum_to_one _ _ _ _ _ _ _ _ _ _ _ _ _ _ Hrun _ _).
  - reflexivity.
  - discriminate.
Defined.

Lemma lcov_cluster_weights_are_normalised_witness :
  exists ww,
    _get_lcov_cluster (fun x _ _ => x) 3 (Matrix 3 1 [[0%R]; [1%R]; [2%R]])
      [0; 1; 0] 0 [0%R; 1%R; 2%R] None
    = Ok (Matrix 3 1 [[0%R]; [1%R]; [2%R]]) /\
    length ww = 3 /\
    Rsum ww = 1%R /\
    Forall (fun v => 0 <= v)%R ww /\
    (forall j l, nth_error [0; 1; 0] j = Some l -> l <> 0 -> nth j ww 0%R = 0%R).
Proof.
  apply (lcov_cluster_weights_are_normalised (fun x _ _ => x) 3
           (Matrix 3 1 [[0%R]; [1%R]; [2%R]]) [0; 1; 0] 0 [0%R; 1%R; 2%R] None).
  - reflexivity.
  - reflexivity.
  - left; reflexivity.
Defined.

(** ** [pcovr_kernel] between the two ends of [mixing] *)

Lemma Rsum_map_scale (c : R) (f : nat -> R) (l : list nat) :
  Rsum (map (fun k => c * f k)%R l) = (c * Rsum (map f l))%R.
Proof.
  induction l as [| k l IH]; simpl; [ring | rewrite IH; ring].
Qed.

Lemma matmul_scaled_gram (c : R) (A : matrix) :
  matmul (scale c A) (transpose A)
  = Ok (build (shape0 A) (shape0 A) (fun i j => c * gram A i j)%R).
Proof.
  unfold matmul, scale, transpose.
  rewrite !shape0_build, !shape1_build, !Nat.eqb_refl. cbn [negb]. f_equal.
  apply build_ext. intros i j Hi Hj. unfold gram.
  rewrite <- Rsum_map_scale. apply Rsum_map_ext. intros k Hk. apply in_seq in Hk.
  rewrite (mget_build _ _ (fun i j => c * mget A i j)%R) by lia.
  rewrite (mget_build _ _ (fun i j => mget A j i)) by lia. ring.
Qed.

Lemma iadd_build (n m : nat) (f g : nat -> nat -> R) :
  iadd (build n m f) (build n m g) = Ok (build n m (fun i j => f i j + g i j)%R).
Proof.
  unfold iadd, broadcastable. rewrite !shape0_build, !shape1_build, !Nat.eqb_refl.
  cbn [andb negb orb]. f_equal. apply build_ext. intros i j Hi Hj.
  rewrite !mget_build by assumption. reflexivity.
Qed.

Lemma gram_sym (A : matrix) (i j : nat) : gram A i j = gram A j i.
Proof.
  unfold gram. apply Rsum_map_ext. intros k _. ring.
Qed.

(** X11: for [0 <= mixing <= 1], no [kernel] keyword, and [Y] with as many
    rows as [X], [pcovr_kernel] returns the matrix of its docstring,
    [mixing * X X^T + (1 - mixing) * Y Y^T], which is symmetric; the two
    ends, where one of the products is skipped, included. *)
Theorem pcovr_kernel_linear
    (pairwise_kernels : matrix -> dict kwval -> outcome matrix)
    (mixing : R) (X Y : matrix) (kernel_params : dict kwval) :
  (0 <= mixing <= 1)%R ->
  shape0 Y = shape0 X ->
  dict_get kernel_params "kernel" = None ->
  exists K,
    pcovr_kernel pairwise_kernels mixing X Y kernel_params = Ok K /\
    shape0 K = shape0 X /\ shape1 K = shape0 X /\
    forall i j, i < shape0 X -> j < shape0 X ->
      mget K i j = (mixing * gram X i j + (1 - mixing) * gram Y i j)%R /\
      mget K i j = mget K j i.
Proof.
  intros [Hlo Hhi] HY Hkernel.
  assert (Hform : exists K,
            pcovr_kernel pairwise_kernels mixing X Y kernel_params = Ok K /\
            shape0 K = shape0 X /\ shape1 K = shape0 X /\
            forall i j, i < shape0 X -> j < shape0 X ->
              mget K i j = (mixing * gram X i j + (1 - mixing) * gram Y i j)%R).
  { unfold pcovr_kernel. rewrite Hkernel.
    destruct (Rlt_dec mixing 1) as [Hlt1 | Hge1];
      [rewrite (Rltb_true _ _ Hlt1) | rewrite (Rltb_false mixing 1) by lra].
    - rewrite matmul_scaled_gram, HY. cbn [obind]. unfold zeros.
      rewrite iadd_build. cbn [obind].
      destruct (Rlt_dec 0 mixing) as [Hgt0 | Hle0].
      + unfold Rgtb. rewrite (Rltb_true _ _ Hgt0).
        rewrite matmul_scaled_gram. cbn [obind]. rewrite iadd_build.
        eexists. split; [reflexivity |]. split; [reflexivity |].
        split; [reflexivity |].
        intros i j Hi Hj. rewrite mget_build by assumption. ring.
      + unfold Rgtb. rewrite (Rltb_false 0 mixing) by lra.
        eexists. split; [reflexivity |]. split; [reflexivity |].
        split; [reflexivity |].
        intros i j Hi Hj. rewrite mget_build by assumption.
        assert (mixing = 0%R) by lra. subst mixing. ring.
    - cbn [obind]. unfold Rgtb. rewrite (Rltb_true 0 mixing) by lra.
      rewrite matmul_scaled_gram. cbn [obind]. unfold zeros. rewrite iadd_build.
      eexists. split; [reflexivity |]. split; [reflexivity |].
      split; [reflexivity |].
      intros i j Hi Hj. rewrite mget_build by assumption.
      assert (mixing = 1%R) by lra. subst mixing. ring. }
  destruct Hform as [K [Hrun [Hs0 [Hs1 Hentries]]]].
  exists K. split; [exact Hrun |]. split; [exact Hs0 |]. split; [exact Hs1 |].
  intros i j Hi Hj. split; [apply Hentries; assumption |].
  rewrite (Hentries i j Hi Hj), (Hentries j i Hj Hi).
  rewrite (gram_sym X i j), (gram_sym Y i j). reflexivity.
Qed.

Lemma pcovr_kernel_linear_witness :
  let X := Matrix 2 1 [[1%R]; [2%R]] in
  let Y := Matrix 2 2 [[3%R; 0%R]; [4%R; 1%R]] in
  exists K,
    pcovr_kernel (fun K _ => Ok K) (1 / 2) X Y [] = Ok K /\
    shape0 K = 2 /\ shape1 K = 2 /\
    forall i j, i < 2 -> j < 2 ->
      mget K i j = (1 / 2 * gram X i j + (1 - 1 / 2) * gram Y i j)%R /\
      mget K i j = mget K j i.
Proof.
  intros X Y.
  apply (pcovr_kernel_linear (fun K _ => Ok K) (1 / 2)%R X Y []).
  - lra.
  - reflexivity.
  - reflexivity.
Defined.

(** ** [pcovr_kernel] on a precomputed kernel, and the shape of the
    covariance *)

Lemma map_nth_range {A : Type} (l : list A) (d : A) :
  map (fun i => nth i l d) (range (length l)) = l.
Proof.
  apply (nth_ext _ _ d d).
  - rewrite length_map. unfold range. apply length_seq.
  - intros i Hi. rewrite length_map in Hi. unfold range in Hi.
    rewrite length_seq in Hi.
    apply (nth_map_range (fun i => nth i l d)). assumption.
Qed.

Lemma build_mget (A : matrix) :
  wf_matrix A -> build (shape0 A) (shape1 A) (mget A) = A.
Proof.
  destruct A as [n m rws]. intros [Hr Hc]. simpl in *. unfold build. f_equal.
  subst n. rewrite <- (map_nth_range rws []) at 2.
  apply map_ext_in. intros i Hi. apply in_seq in Hi.
  assert (Hrow : length (nth i rws []) = m).
  { rewrite Forall_forall in Hc. apply Hc. apply nth_In. lia. }
  unfold mget. simpl. rewrite <- Hrow. apply map_nth_range.
Qed.

(** X12: at [mixing = 1] a kernel passed as ["precomputed"] comes back
    from [pcovr_kernel] as it is when it is square, whatever [Y] and without
    a call of [pairwise_kernels].  A kernel with a single column is not
    refused: line 170 broadcasts it, and every column of the result is that
    column.  Any other number of columns raises a ValueError. *)
Theorem pcovr_kernel_precomputed
    (pairwise_kernels : matrix -> dict kwval -> outcome matrix)
    (X Y : matrix) (kernel_params : dict kwval) :
  wf_matrix X ->
  dict_get kernel_params "kernel" = Some (KwString "precomputed") ->
  pcovr_kernel pairwise_kernels 1 X Y kernel_params =
  if shape1 X =? shape0 X then Ok X
  else if shape1 X =? 1
       then Ok (build (shape0 X) (shape0 X) (fun i _ => mget X i 0))
       else Raise (ValueError "operands could not be broadcast together").
Proof.
  intros Hwf Hkernel. unfold pcovr_kernel.
  rewrite Rltb_1_1, Rgtb_1_0, Hkernel. cbn [obind kw_is].
  change (String.eqb "precomputed" "precomputed") with true. cbn [negb].
  unfold iadd, broadcastable, scale, zeros.
  rewrite !shape0_build, !shape1_build, Nat.eqb_refl. cbn [andb orb].
  destruct (Nat.eqb_spec (shape1 X) (shape0 X)) as [Hsq | Hnsq]; cbn [negb orb].
  - f_equal. rewrite <- (build_mget X Hwf) at 3. rewrite Hsq.
    apply build_ext. intros i j Hi Hj.
    rewrite !mget_build by lia. ring.
  - destruct (Nat.eqb_spec (shape1 X) 1) as [Hone | Hmany]; cbn [negb];
      [| reflexivity].
    f_equal. apply build_ext. intros i j Hi Hj.
    rewrite !mget_build by lia. ring.
Qed.

Lemma pcovr_kernel_precomputed_witness :
  let K := Matrix 2 1 [[5%R]; [6%R]] in
  pcovr_kernel (fun _ _ => Raise (ValueError "unknown kernel")) 1 K
    (Matrix 2 1 [[5%R]; [6%R]]) [("kernel", KwString "precomputed")] =
  if shape1 K =? shape0 K then Ok K
  else if shape1 K =? 1
       then Ok (build (shape0 K) (shape0 K) (fun i _ => mget K i 0))
       else Raise (ValueError "operands could not be broadcast together").
Proof.
  intros K.
  apply (pcovr_kernel_precomputed (fun _ _ => Raise (ValueError "unknown kernel"))
           K (Matrix 2 1 [[5%R]; [6%R]]) [("kernel", KwString "precomputed")]).
  - split; [reflexivity |]. repeat constructor.
  - reflexivity.
Defined.

Lemma iadd_shape (C A C' : matrix) :
  iadd C A = Ok C' ->
  shape0 C' = shape0 C /\ shape1 C' = shape1 C /\ wf_matrix C'.
Proof.
  unfold iadd. destruct (negb _); [discriminate |].
  intros H. inversion H; subst. repeat split; try reflexivity.
  - apply (wf_build (shape0 C) (shape1 C)).
  - apply (wf_build (shape0 C) (shape1 C)).
Qed.

Ltac step_obind H :=
  match type of H with
  | obind ?c _ = _ =>
      let E := fresh "E" in
      destruct c eqn:E; cbn [obind] in H; [| discriminate]
  end.

(** X13: whenever [pcovr_covariance] returns, the covariance has the shape
    of [X.T @ X], [X.shape[1]] rows and columns, and the inverse square
    root comes with it exactly when [return_isqrt] asks for it. *)
Theorem pcovr_covariance_shape
    (linalg_svd : matrix -> outcome (matrix * list R * matrix))
    (randomized_svd :
       matrix -> nat -> option nat -> nat -> outcome (matrix * list R * matrix))
    (mixing : R) (X Y : matrix) (rcond : R) (return_isqrt : bool)
    (rank : option nat) (random_state : nat) (iterated_power : option nat)
    (C : matrix) (isqrt : option matrix) :
  pcovr_covariance linalg_svd randomized_svd mixing X Y rcond return_isqrt rank
    random_state iterated_power = Ok (C, isqrt) ->
  shape0 C = shape1 X /\ shape1 C = shape1 X /\ wf_matrix C /\
  (isqrt = None <-> return_isqrt = false).
Proof.
  unfold pcovr_covariance. intros H.
  step_obind H. destruct a as [C1 o1].
  assert (H1 : shape0 C1 = shape1 X /\ shape1 C1 = shape1 X /\ wf_matrix C1 /\
               (return_isqrt = true -> o1 <> None)).
  { destruct (Rltb mixing 1 || return_isqrt) eqn:Eb.
    - step_obind E. destruct a as [[U vC] UC].
      repeat step_obind E.
      inversion E; subst.
      match goal with
      | Hi : iadd _ _ = Ok _ |- _ =>
          apply iadd_shape in Hi; destruct Hi as [A0 [A1 A2]]
      end.
      split; [exact A0 |]. split; [exact A1 |]. split; [exact A2 |].
      intros _. discriminate.
    - inversion E; subst.
      split; [reflexivity |]. split; [reflexivity |].
      split; [apply wf_build |].
      intros Hri. rewrite Hri, orb_true_r in Eb. discriminate. }
  clear E. destruct H1 as [A0 [A1 [A2 A3]]].
  step_obind H.
  assert (H2 : shape0 a = shape1 X /\ shape1 a = shape1 X /\ wf_matrix a).
  { destruct (Rgtb mixing 0).
    - step_obind E. apply iadd_shape in E. destruct E as [B0 [B1 B2]].
      split; [congruence |]. split; [congruence | exact B2].
    - inversion E; subst. split; [exact A0 |]. split; [exact A1 | exact A2]. }
  destruct H2 as [B0 [B1 B2]].
  destruct return_isqrt; inversion H; subst;
    (split; [exact B0 |]; split; [exact B1 |]; split; [exact B2 |]).
  - split; [| discriminate]. intros ->. exfalso. apply A3; reflexivity.
  - split; reflexivity.
Qed.

Lemma pcovr_covariance_shape_witness :
  let X := Matrix 2 1 [[1%R]; [2%R]] in
  let C := build (shape1 X) (shape1 X)
             (fun i j => Rsum (map (fun k => mget (transpose X) i k * mget X k j)%R
                                   (range (shape0 X)))) in
  shape0 C = shape1 X /\ shape1 C = shape1 X /\ wf_matrix C /\
  (@None matrix = None <-> false = false).
Proof.
  intros X C.
  refine (pcovr_covariance_shape
            (fun _ => Raise (ValueError "SVD did not converge"))
            (fun _ _ _ _ => Raise (ValueError "SVD did not converge"))
            1%R X X (1 / 2)%R false None 0 None C None _).
  unfold pcovr_covariance. rewrite Rltb_1_1, Rgtb_1_0. cbn [orb obind].
  rewrite matmul_transpose_left. cbn [obind].
  rewrite iadd_zeros_scale_one. reflexivity.
Defined.

(** ** [rij]: exchanging the points, and moving one by whole periods *)

Lemma round_half_even_opp (x : R) :
  round_half_even (- x) = (- round_half_even x)%Z.
Proof.
  destruct (Int_part_bounds x) as [Hlo Hhi].
  assert (Heven : Z.even (- Int_part x - 1) = negb (Z.even (Int_part x))).
  { rewrite Z.even_sub, Z.even_opp. simpl. destruct (Z.even (Int_part x)); reflexivity. }
  destruct (Req_dec x (IZR (Int_part x))) as [Hint | Hfrac].
  - assert (HI : Int_part (- x) = (- Int_part x)%Z).
    { apply Int_part_unique. rewrite opp_IZR. lra. }
    unfold round_half_even. rewrite HI, opp_IZR.
    destruct (Rlt_dec (- x - - IZR (Int_part x)) (1 / 2)); [| lra].
    destruct (Rlt_dec (x - IZR (Int_part x)) (1 / 2)); [reflexivity | lra].
  - assert (HI : Int_part (- x) = (- Int_part x - 1)%Z).
    { apply Int_part_unique. rewrite minus_IZR, opp_IZR. lra. }
    unfold round_half_even. rewrite HI, Heven, minus_IZR, opp_IZR.
    set (n := Int_part x) in *.
    destruct (Rlt_dec (- x - (- IZR n - 1)) (1 / 2)) as [A | A];
      destruct (Rlt_dec (x - IZR n) (1 / 2)) as [B | B]; try lra.
    + destruct (Rlt_dec (1 / 2) (x - IZR n)); [lia | lra].
    + destruct (Rlt_dec (1 / 2) (- x - (- IZR n - 1))); [lia | lra].
    + destruct (Rlt_dec (1 / 2) (- x - (- IZR n - 1))) as [C | C];
        destruct (Rlt_dec (1 / 2) (x - IZR n)) as [D | D]; try lra.
      destruct (Z.even n); simpl; lia.
Qed.

Lemma rij1_swap (p xi xj : R) : rij1 p xj xi = (- rij1 p xi xj)%R.
Proof.
  unfold rij1, np_round.
  replace ((xj - xi) / p)%R with (- ((xi - xj) / p))%R by (unfold Rdiv; ring).
  rewrite round_half_even_opp, opp_IZR. ring.
Qed.

Lemma rij_vec_swap (P : list R) :
  forall a b, rij_vec P b a = map Ropp (rij_vec P a b).
Proof.
  induction P as [| p P IH]; intros [| x a] [| y b]; simpl; try reflexivity.
  rewrite rij1_swap, IH. reflexivity.
Qed.

(** X14: exchanging the two points negates the displacement, coordinate by
    coordinate, ties of the rounding included. *)
Theorem rij_antisymmetric (P a b : list R) :
  length a = length P -> length b = length P ->
  Forall (fun p => 0 < p)%R P ->
  exists d,
    rij (Some P) a b = Ok d /\ rij (Some P) b a = Ok (map Ropp d).
Proof.
  intros Ha Hb _. exists (rij_vec P a b).
  rewrite !rij_periodic by assumption. rewrite (rij_vec_swap P a b).
  split; reflexivity.
Qed.

Lemma rij_antisymmetric_witness :
  exists d,
    rij (Some [2%R; 3%R]) [0%R; 1%R] [1%R; 5%R] = Ok d /\
    rij (Some [2%R; 3%R]) [1%R; 5%R] [0%R; 1%R] = Ok (map Ropp d).
Proof.
  apply (rij_antisymmetric [2%R; 3%R] [0%R; 1%R] [1%R; 5%R]).
  - reflexivity.
  - reflexivity.
  - repeat constructor; lra.
Defined.

Lemma rij1_as_remainder (p xi xj : R) :
  (0 < p)%R ->
  rij1 p xi xj = (p * ((xi - xj) / p - IZR (round_half_even ((xi - xj) / p))))%R.
Proof.
  intros Hp. unfold rij1, np_round. field. lra.
Qed.

Lemma rij1_shift_square (p xi xj : R) (k : Z) :
  (0 < p)%R ->
  (rij1 p (xi + IZR k * p) xj * rij1 p (xi + IZR k * p) xj
   = rij1 p xi xj * rij1 p xi xj)%R.
Proof.
  intros Hp. rewrite !rij1_as_remainder by assumption.
  replace ((xi + IZR k * p - xj) / p)%R with ((xi - xj) / p + IZR k)%R
    by (field; lra).
  set (y := ((xi - xj) / p)%R).
  pose proof (round_half_even_near y) as He.
  pose proof (round_half_even_near (y + IZR k)) as He'.
  set (r := round_half_even y) in *. set (r' := round_half_even (y + IZR k)) in *.
  set (z := (k - r' + r)%Z).
  assert (Hz : (y + IZR k - IZR r' - (y - IZR r) = IZR z)%R).
  { unfold z. rewrite plus_IZR, minus_IZR. ring. }
  assert (Hz1 : (z <= 1)%Z) by (apply le_IZR; lra).
  assert (Hz2 : (-1 <= z)%Z) by (apply le_IZR; lra).
  assert (Hcases : z = (-1)%Z \/ z = 0%Z \/ z = 1%Z) by lia.
  destruct Hcases as [E | [E | E]]; rewrite E in Hz; simpl in Hz.
  - assert (y - IZR r = 1 / 2)%R by lra.
    assert (y + IZR k - IZR r' = - (1 / 2))%R by lra. nra.
  - assert (y + IZR k - IZR r' = y - IZR r)%R by lra. nra.
  - assert (y - IZR r = - (1 / 2))%R by lra.
    assert (y + IZR k - IZR r' = 1 / 2)%R by lra. nra.
Qed.

(** X15: moving the first point by whole periods leaves the square of
    every coordinate of the displacement unchanged (the sign of a
    coordinate of half a period may turn). *)
Theorem rij_shift_by_periods (P a b : list R) (ks : list Z) :
  length a = length P -> length b = length P -> length ks = length P ->
  Forall (fun p => 0 < p)%R P ->
  let a' := zip_with Rplus a (zip_with (fun k p => IZR k * p)%R ks P) in
  exists d d',
    rij (Some P) a b = Ok d /\ rij (Some P) a' b = Ok d' /\
    Forall2 (fun r' r => r' * r' = r * r)%R d' d.
Proof.
  intros Ha Hb Hk HP a'.
  exists (rij_vec P a b), (rij_vec P a' b).
  split; [apply rij_periodic; assumption |]. split.
  { apply rij_periodic; [| assumption]. unfold a'.
    rewrite zip_with_length; [assumption |].
    rewrite zip_with_length; lia. }
  subst a'. revert a b ks Ha Hb Hk.
  induction HP as [| p P Hp HP IH]; intros [| x a] [| y b] [| k ks] Ha Hb Hk;
    simpl in *; try lia; try constructor.
  - apply rij1_shift_square. assumption.
  - apply IH; lia.
Qed.

Lemma rij_shift_by_periods_witness :
  exists d d',
    rij (Some [2%R]) [1%R] [0%R] = Ok d /\
    rij (Some [2%R])
      (zip_with Rplus [1%R] (zip_with (fun k p => IZR k * p)%R [1%Z] [2%R]))
      [0%R] = Ok d' /\
    Forall2 (fun r' r => r' * r' = r * r)%R d' d.
Proof.
  apply (rij_shift_by_periods [2%R] [1%R] [0%R] [1%Z]).
  - reflexivity.
  - reflexivity.
  - reflexivity.
  - repeat constructor; lra.
Defined.

(** ** [quick_shift_refinement] on arrays of different lengths *)

(** X16: with at least one center, densities and labels of different
    lengths stop the call at the first cluster mass, with the [IndexError]
    of the boolean mask and before either array is written to. *)
Theorem refinement_length_mismatch
    (metric : list R -> list R -> option (list R) -> R) (X : matrix)
    (probs : list R) (thrpcl : R) (metric_params : option (dict (list R)))
    (cell : option (list R)) (w : world) :
  refinement_cell X metric_params = Ok cell ->
  w_centers w <> [] ->
  length probs <> length (w_labels w) ->
  quick_shift_refinement metric X probs thrpcl metric_params w =
  (Raise (IndexError "boolean index did not match indexed array"), w).
Proof.
  intros Hcell Hcenters Hlen.
  unfold quick_shift_refinement, refinement_body. unfold_monad. rewrite Hcell.
  destruct (w_centers w) as [| c0 centers] eqn:Ec; [contradiction |].
  cbn [length range seq for_each]. unfold bind at 1. unfold flag_body at 1.
  unfold_monad. rewrite Ec. cbn [getitem nth_error].
  unfold cluster_mass, mask_select, eq_mask. rewrite length_map.
  destruct (Nat.eqb_spec (length probs) (length (w_labels w))); [contradiction |].
  reflexivity.
Qed.

Lemma refinement_length_mismatch_witness :
  quick_shift_refinement (fun _ _ _ => 0%R) (Matrix 2 1 [[0%R]; [1%R]])
    [0%R] 0 None (World [0] [0; 0] []) =
  (Raise (IndexError "boolean index did not match indexed array"),
   World [0] [0; 0] []).
Proof.
  apply (refinement_length_mismatch (fun _ _ _ => 0%R)
           (Matrix 2 1 [[0%R]; [1%R]]) [0%R] 0%R None None (World [0] [0; 0] [])).
  - reflexivity.
  - discriminate.
  - simpl. lia.
Defined.
